(** * ZipTransformer: a streaming ZIP writer (src/zip/zip-transformer.ts)

    A shallow embedding of the [ZipTransformer] class and the theorems that
    relate it to its written specification.

    Conventions of the embedding:
    - a JavaScript [bigint] is a [Z]; a [number] holding a length or a count
      is a [Z] as well;
    - a [Uint8Array] is a list of bytes, each byte a [Z] in [0, 256);
    - a JavaScript string is a Rocq [string] read as a sequence of code units
      below 256 (the Latin-1 range);
    - a [Date] is its time value in milliseconds;
    - the entry objects live in a store addressed by references, because
      [this.entry] and [this.entries[name]] alias one object;
    - a call that would throw in JavaScript yields [None]. *)

From Stdlib Require Import ZArith NArith List String Ascii Bool Lia Sorted.
From stdpp Require Import base list strings.
Import ListNotations.

Local Open Scope string_scope.
Local Open Scope list_scope.
Local Open Scope Z_scope.

Definition Uint8Array : Type := list Z.
Definition Date : Type := Z.

(** [x.length] of a byte array, as the [bigint] that [BigInt(x.length)] yields. *)
Definition byteLength (b : Uint8Array) : Z := Z.of_nat (length b).

(** Total number of bytes held by a sequence of chunks. *)
Definition totalBytes (chunks : list Uint8Array) : Z :=
  fold_right (fun c n => byteLength c + n) 0 chunks.

(** ** Collaborators that live outside zip-transformer.ts *)

(** Modelled from the spec: constants.ZIP64_MAGIC, the 32-bit magic threshold
    (section 6: 32-bit magic = 0xFFFFFFFF). *)
Definition ZIP64_MAGIC : Z := 0xFFFFFFFF.

(** Modelled from the spec: constants.ZIP64_MAGIC_SHORT, the 16-bit magic
    threshold (section 6: 16-bit magic = 0xFFFF). *)
Definition ZIP64_MAGIC_SHORT : Z := 0xFFFF.

(** The remaining imports of the file: the record signatures and the Zip64
    extra-field tag of ./constants, the rolling checksum of ./crc32.js
    (append bytes, read the current checksum) and the date conversion of
    ./util.  None of them is given a value here: every theorem below holds
    for any choice of them. *)
Class Collaborators : Type := {
  SIG_LFH : Z;
  SIG_DD : Z;
  SIG_CFH : Z;
  SIG_EOCD : Z;
  SIG_ZIP64_EOCD : Z;
  SIG_ZIP64_EOCD_LOC : Z;
  ZIP64_EXTRA_ID : Z;
  Crc32 : Type;
  Crc32_new : Crc32;
  Crc32_append : Crc32 -> Uint8Array -> Crc32;
  Crc32_get : Crc32 -> Z;
  getDateTimeDOS : Date -> Z
}.

(** ** BinaryStream (../util/binary-stream.js) *)

(** The [n] low-order bytes of [v], least significant first. *)
Fixpoint le_bytes (n : nat) (v : Z) : Uint8Array :=
  match n with
  | O => []
  | S n' => (v mod 256) :: le_bytes n' (v / 256)
  end.

Module BinaryStream.

(** Modelled from the spec: the low-level binary writer (write fixed-width
    integer, write raw bytes, produce byte buffer; section 6: all integers
    little-endian).  A value wider than its field keeps its low-order bytes. *)
Definition t : Type := list Z.

Definition new : t := [].
Definition writeInt16 (v : Z) (s : t) : t := s ++ le_bytes 2 v.
Definition writeInt32 (v : Z) (s : t) : t := s ++ le_bytes 4 v.
Definition writeBigInt64 (v : Z) (s : t) : t := s ++ le_bytes 8 v.
Definition writeBytes (b : Uint8Array) (s : t) : t := s ++ b.
Definition getByteArray (s : t) : Uint8Array := s.

End BinaryStream.

(** Method chaining: [s |> f] is [s.f]. *)
Notation "s |> f" := (f s) (at level 45, left associativity, only parsing).

(** ** JavaScript built-ins used by the class *)

(** ToBoolean of a function object.  [entry.isZip64] and [this.isZip64]
    written without a call denote the method itself, and every object is
    truthy. *)
Definition methodReference {A B : Type} (method : A -> B) : bool := true.

(** White space and line terminators below U+0100, the characters that
    [String.prototype.trim] strips: TAB, LF, VT, FF, CR, SP and NBSP. *)
Definition isWhiteSpace (c : ascii) : bool :=
  let n := N_of_ascii c in
  (((9 <=? n) && (n <=? 13)) || (n =? 32) || (n =? 160))%N.

Fixpoint trimStart (s : string) : string :=
  match s with
  | String c s' => if isWhiteSpace c then trimStart s' else s
  | EmptyString => EmptyString
  end.

(** Strips trailing white space: a character is kept when anything is kept
    after it or when it is not white space. *)
Fixpoint trimEnd (s : string) : string :=
  match s with
  | String c s' =>
      match trimEnd s' with
      | EmptyString => if isWhiteSpace c then EmptyString else String c EmptyString
      | rest => String c rest
      end
  | EmptyString => EmptyString
  end.

Definition trim (s : string) : string := trimEnd (trimStart s).

(** [TextEncoder.prototype.encode]: UTF-8 of code units below 256. *)
Definition utf8 (c : ascii) : Uint8Array :=
  let n := Z.of_N (N_of_ascii c) in
  if n <? 128 then [n] else [Z.lor 0xC0 (Z.shiftr n 6); Z.lor 0x80 (Z.land n 0x3F)].

Fixpoint textEncoder_encode (s : string) : Uint8Array :=
  match s with
  | String c s' => utf8 c ++ textEncoder_encode s'
  | EmptyString => []
  end.

(** *** Ordinary objects used as maps *)

(** The own properties of an object such as [this.entries], in the order in
    which they were created. *)
Definition JSObject (V : Type) : Type := list (string * V).

Definition isDigit (c : ascii) : bool :=
  let n := N_of_ascii c in ((48 <=? n) && (n <=? 57))%N.

Fixpoint allDigits (s : string) : bool :=
  match s with
  | String c s' => isDigit c && allDigits s'
  | EmptyString => true
  end.

Fixpoint decimalValue (acc : N) (s : string) : N :=
  match s with
  | String c s' => decimalValue (10 * acc + (N_of_ascii c - 48))%N s'
  | EmptyString => acc
  end.

(** A property key is an array index when it is the canonical decimal form
    of an integer in [0, 2^32 - 2]: digits only, no leading zero. *)
Definition arrayIndex (k : string) : option N :=
  match k with
  | EmptyString => None
  | String c rest =>
      if allDigits k
         && (negb (N_of_ascii c =? 48)%N
             || match rest with EmptyString => true | String _ _ => false end)
      then let n := decimalValue 0 k in
           if (n <=? 4294967294)%N then Some n else None
      else None
  end.

Definition isArrayIndex (k : string) : bool :=
  match arrayIndex k with Some _ => true | None => false end.

Fixpoint putOwn {V : Type} (o : JSObject V) (k : string) (v : V) : JSObject V :=
  match o with
  | [] => [(k, v)]
  | (k', v') :: o' =>
      if (k' =? k)%string then (k', v) :: o' else (k', v') :: putOwn o' k v
  end.

(** [o[k] = v] on an object created by [{}].  The key "__proto__" reaches the
    accessor inherited from Object.prototype: the assignment of an object
    replaces the prototype of [o] and creates no own property.  Any other key
    overwrites the own property in place or creates it after the others. *)
Definition assign {V : Type} (o : JSObject V) (k : string) (v : V) : JSObject V :=
  if (k =? "__proto__")%string then o else putOwn o k v.

(** [o[k]] for an own property [k]. *)
Fixpoint getOwn {V : Type} (o : JSObject V) (k : string) : option V :=
  match o with
  | [] => None
  | (k', v) :: o' => if (k' =? k)%string then Some v else getOwn o' k
  end.

Fixpoint insertIndex (n : N) (k : string) (l : list (N * string)) : list (N * string) :=
  match l with
  | [] => [(n, k)]
  | (m, k') :: l' =>
      if (n <=? m)%N then (n, k) :: l else (m, k') :: insertIndex n k l'
  end.

Fixpoint indexKeys (ks : list string) : list (N * string) :=
  match ks with
  | [] => []
  | k :: ks' =>
      match arrayIndex k with
      | Some n => insertIndex n k (indexKeys ks')
      | None => indexKeys ks'
      end
  end.

(** [Object.keys(o)]: the array indices in ascending numeric order, then the
    other string keys in the order of their creation. *)
Definition Object_keys {V : Type} (o : JSObject V) : list string :=
  let ks := map fst o in
  map snd (indexKeys ks) ++ List.filter (fun k => negb (isArrayIndex k)) ks.

(** ** The items that the transformer receives *)

Module Entry.

(** The [entry] argument of [transform]: a name, an optional
    modification time and an optional content source.  [stream] holds the
    chunks that successive [reader.read()] calls deliver before [done]. *)
Record t : Type := {
  name : string;
  lastModified : option Z;
  stream : option (list Uint8Array)
}.

End Entry.

(** ** interface IEntry *)

Module IEntry.
Section WithCollaborators.
Context `{Collaborators}.

Record t : Type := {
  offset : Z;
  crc : Crc32;
  compressedSize : Z;
  size : Z;
  nameBuffer : Uint8Array;
  date : Date;
  extra : Uint8Array
}.

Definition isZip64 (this : t) : bool :=
  (compressedSize this >? ZIP64_MAGIC) || (size this >? ZIP64_MAGIC).

Definition set_crc (c : Crc32) (e : t) : t :=
  {| offset := offset e; crc := c; compressedSize := compressedSize e;
     size := size e; nameBuffer := nameBuffer e; date := date e;
     extra := extra e |}.

Definition set_compressedSize (n : Z) (e : t) : t :=
  {| offset := offset e; crc := crc e; compressedSize := n;
     size := size e; nameBuffer := nameBuffer e; date := date e;
     extra := extra e |}.

Definition set_size (n : Z) (e : t) : t :=
  {| offset := offset e; crc := crc e; compressedSize := compressedSize e;
     size := n; nameBuffer := nameBuffer e; date := date e;
     extra := extra e |}.

Definition set_extra (x : Uint8Array) (e : t) : t :=
  {| offset := offset e; crc := crc e; compressedSize := compressedSize e;
     size := size e; nameBuffer := nameBuffer e; date := date e;
     extra := x |}.

End WithCollaborators.
End IEntry.

(** ** class ZipTransformer *)

Module ZipTransformer.

(** A reference to an [IEntry] object of the store: its position there. *)
Abbreviation ref := nat.

Section WithCollaborators.
Context `{Collaborators}.

(** The fields of the class.  [entry] is [null] until the first call of
    [transform]. *)
Record t : Type := {
  forceZip64 : bool;
  entry : option ref;
  entries : JSObject ref;
  offset : Z;
  centralOffset : Z;
  centralSize : Z
}.

Definition set_entry (r : ref) (z : t) : t :=
  {| forceZip64 := forceZip64 z; entry := Some r; entries := entries z;
     offset := offset z; centralOffset := centralOffset z;
     centralSize := centralSize z |}.

Definition set_entries (o : JSObject ref) (z : t) : t :=
  {| forceZip64 := forceZip64 z; entry := entry z; entries := o;
     offset := offset z; centralOffset := centralOffset z;
     centralSize := centralSize z |}.

Definition set_offset (n : Z) (z : t) : t :=
  {| forceZip64 := forceZip64 z; entry := entry z; entries := entries z;
     offset := n; centralOffset := centralOffset z;
     centralSize := centralSize z |}.

Definition set_centralOffset (n : Z) (z : t) : t :=
  {| forceZip64 := forceZip64 z; entry := entry z; entries := entries z;
     offset := offset z; centralOffset := n;
     centralSize := centralSize z |}.

Definition set_centralSize (n : Z) (z : t) : t :=
  {| forceZip64 := forceZip64 z; entry := entry z; entries := entries z;
     offset := offset z; centralOffset := centralOffset z;
     centralSize := n |}.

(** Everything a method can touch: the transformer itself, the store of the
    entry objects in the order of their creation, and the chunks handed to
    [ctrl.enqueue] so far, oldest first. *)
Record World : Type := {
  this : t;
  store : list IEntry.t;
  enqueued : list Uint8Array
}.

(** A method body: it runs to a result and a new world, or throws. *)
Definition M (A : Type) : Type := World -> option (A * World).

Definition ret {A : Type} (a : A) : M A := fun w => Some (a, w).

Definition bind {A B : Type} (m : M A) (k : A -> M B) : M B :=
  fun w => match m w with
           | Some (a, w') => k a w'
           | None => None
           end.

Notation "'let!' x ':=' m 'in' k" := (bind m (fun x => k))
  (at level 10, x name, m at level 100, k at level 200).
Notation "m ;;; k" := (bind m (fun _ => k))
  (at level 100, k at level 200, right associativity).

(** The world that a method leaves behind, when it returns. *)
Definition exec {A : Type} (m : M A) (w : World) : option World :=
  match m w with
  | Some (_, w') => Some w'
  | None => None
  end.

(** [this.f] *)
Definition get {A : Type} (f : t -> A) : M A := fun w => Some (f (this w), w).

(** [this.f = v] *)
Definition put (f : t -> t) : M unit :=
  fun w => Some (tt, {| this := f (this w); store := store w; enqueued := enqueued w |}).

(** An object literal: a fresh object at the end of the store. *)
Definition alloc (e : IEntry.t) : M ref :=
  fun w => Some (length (store w),
                 {| this := this w; store := store w ++ [e]; enqueued := enqueued w |}).

(** Reading through a reference; [null] and dangling references throw. *)
Definition deref (r : ref) : M IEntry.t :=
  fun w => match store w !! r with
           | Some e => Some (e, w)
           | None => None
           end.

(** A field assignment through a reference. *)
Definition update (r : ref) (f : IEntry.t -> IEntry.t) : M unit :=
  fun w => match store w !! r with
           | Some e => Some (tt, {| this := this w; store := <[r := f e]> (store w);
                                    enqueued := enqueued w |})
           | None => None
           end.

(** The reference held by [this.entry]. *)
Definition thisEntry : M ref :=
  fun w => match entry (this w) with
           | Some r => Some (r, w)
           | None => None
           end.

(** [this.entries[name]] for a name that [Object.keys] listed. *)
Definition entryNamed (name : string) : M ref :=
  fun w => match getOwn (entries (this w)) name with
           | Some r => Some (r, w)
           | None => None
           end.

(** [ctrl.enqueue(chunk)] *)
Definition enqueue (chunk : Uint8Array) : M unit :=
  fun w => Some (tt, {| this := this w; store := store w;
                        enqueued := enqueued w ++ [chunk] |}).

(** [list.forEach(body)] *)
Fixpoint forEach {A : Type} (l : list A) (body : A -> M unit) : M unit :=
  match l with
  | [] => ret tt
  | x :: l' => body x ;;; forEach l' body
  end.

(** [constructor()], lines 28-36, with nothing enqueued yet. *)
Definition new : World :=
  {| this := {| forceZip64 := false; entry := None; entries := [];
                offset := 0; centralOffset := 0; centralSize := 0 |};
     store := [];
     enqueued := [] |}.

(** [isZip64()] of the class, lines 201-203. *)
Definition isZip64 (z : t) : bool :=
  forceZip64 z
  || (Z.of_nat (length (Object_keys (entries z))) >? ZIP64_MAGIC_SHORT)
  || (centralSize z >? ZIP64_MAGIC)
  || (centralOffset z >? ZIP64_MAGIC).

(** *** transform, lines 38-101 *)

(** [new Date(entry.lastModified ? entry.lastModified : new Date())]: an
    absent or zero time stamp is falsy and gives the current time [now]. *)
Definition entryDate (now : Date) (entry : Entry.t) : Date :=
  match Entry.lastModified entry with
  | Some t => if t =? 0 then now else t
  | None => now
  end.

(** Lines 44-55: [this.entry = this.entries[name] = { ... }]. *)
Definition defineEntry (name : string) (nameBuffer : Uint8Array) (date : Date) : M unit :=
  let! cursor := get offset in
  let! r := alloc {| IEntry.offset := cursor;
                IEntry.crc := Crc32_new;
                IEntry.compressedSize := 0;
                IEntry.size := 0;
                IEntry.nameBuffer := nameBuffer;
                IEntry.date := date;
                IEntry.extra := [] |} in
  let! entries := get entries in
  put (set_entries (assign entries name r)) ;;;
  put (set_entry r).

(** Lines 57-72: LOCAL FILE HEADER. *)
Definition localFileHeader (nameBuffer : Uint8Array) (date : Date) : M unit :=
  let! r := thisEntry in
  let! e := deref r in
  let localFileHeader :=
    BinaryStream.new
      |> BinaryStream.writeInt32 SIG_LFH
      |> BinaryStream.writeInt16 0x002D
      |> BinaryStream.writeInt16 0x0808
      |> BinaryStream.writeInt16 0x0000
      |> BinaryStream.writeInt32 (getDateTimeDOS date)
      |> BinaryStream.writeInt32 0x00000000
      |> BinaryStream.writeInt32 0x00000000
      |> BinaryStream.writeInt32 0x00000000
      |> BinaryStream.writeInt16 (byteLength nameBuffer)
      |> BinaryStream.writeInt16 0
      |> BinaryStream.writeBytes nameBuffer
      |> BinaryStream.writeBytes (IEntry.extra e)
      |> BinaryStream.getByteArray in
  enqueue localFileHeader ;;;
  let! cursor := get offset in
  put (set_offset (cursor + byteLength localFileHeader)).

(** Lines 76-83: the read loop, one turn for each chunk read before [done]. *)
Fixpoint readLoop (chunks : list Uint8Array) : M unit :=
  match chunks with
  | [] => ret tt
  | value :: rest =>
      let! r := thisEntry in
      let! e := deref r in
      update r (IEntry.set_crc (Crc32_append (IEntry.crc e) value)) ;;;
      let! e := deref r in
      update r (IEntry.set_compressedSize (IEntry.compressedSize e + byteLength value)) ;;;
      let! e := deref r in
      update r (IEntry.set_size (IEntry.size e + byteLength value)) ;;;
      enqueue value ;;;
      readLoop rest
  end.

(** Lines 74-84: FILE DATA. *)
Definition fileData (entry : Entry.t) : M unit :=
  match Entry.stream entry with
  | Some chunks => readLoop chunks
  | None => ret tt
  end.

(** Lines 86-100: DATA DESCRIPTOR.  The condition of line 89 is the method
    [isZip64] of the entry, not its result. *)
Definition dataDescriptor : M unit :=
  let! r := thisEntry in
  let! e := deref r in
  let dataDescriptor :=
    BinaryStream.new
      |> BinaryStream.writeInt32 SIG_DD
      |> BinaryStream.writeInt32 (Crc32_get (IEntry.crc e)) in
  let dataDescriptor :=
    if methodReference IEntry.isZip64 then
      dataDescriptor
        |> BinaryStream.writeBigInt64 (IEntry.compressedSize e)
        |> BinaryStream.writeBigInt64 (IEntry.size e)
    else
      dataDescriptor
        |> BinaryStream.writeInt32 (IEntry.compressedSize e)
        |> BinaryStream.writeInt32 (IEntry.size e) in
  let dataDescriptorByteArray := BinaryStream.getByteArray dataDescriptor in
  enqueue dataDescriptorByteArray ;;;
  let! cursor := get offset in
  let! e := deref r in
  put (set_offset (cursor + (IEntry.size e + byteLength dataDescriptorByteArray))).

Definition transform (now : Date) (entry : Entry.t) : M unit :=
  let name := trim (Entry.name entry) in
  let date := entryDate now entry in
  let nameBuffer := textEncoder_encode name in
  defineEntry name nameBuffer date ;;;
  localFileHeader nameBuffer date ;;;
  fileData entry ;;;
  dataDescriptor.

(** *** flush, lines 102-200 *)

(** Lines 105-147: the body of the [forEach] over the names.  The condition
    of line 112 starts with the method [isZip64] of the entry, not its
    result. *)
Definition centralDirectoryFileHeader (name : string) : M unit :=
  let! r := entryNamed name in
  let! entry := deref r in
  let fileOffset := IEntry.offset entry in
  let size := IEntry.size entry in
  let compressedSize := IEntry.compressedSize entry in
  let! sizes :=
    (if methodReference IEntry.isZip64 || (IEntry.offset entry >? ZIP64_MAGIC) then
       let createZip64ExtraField :=
         BinaryStream.new
           |> BinaryStream.writeInt16 ZIP64_EXTRA_ID
           |> BinaryStream.writeInt16 24
           |> BinaryStream.writeBigInt64 (IEntry.size entry)
           |> BinaryStream.writeBigInt64 (IEntry.compressedSize entry)
           |> BinaryStream.writeBigInt64 (IEntry.offset entry) in
       update r (IEntry.set_extra (BinaryStream.getByteArray createZip64ExtraField)) ;;;
       ret (ZIP64_MAGIC, ZIP64_MAGIC, ZIP64_MAGIC)
     else
       ret (fileOffset, size, compressedSize)) in
  let '(fileOffset, size, compressedSize) := sizes in
  let! entry := deref r in
  let centralDirectoryFileHeader :=
    BinaryStream.new
      |> BinaryStream.writeInt32 SIG_CFH
      |> BinaryStream.writeInt16 0x002D
      |> BinaryStream.writeInt16 0x002D
      |> BinaryStream.writeInt16 0x0808
      |> BinaryStream.writeInt16 0x0000
      |> BinaryStream.writeInt32 (getDateTimeDOS (IEntry.date entry))
      |> BinaryStream.writeInt32 (Crc32_get (IEntry.crc entry))
      |> BinaryStream.writeInt32 compressedSize
      |> BinaryStream.writeInt32 size
      |> BinaryStream.writeInt16 (byteLength (IEntry.nameBuffer entry))
      |> BinaryStream.writeInt16 (byteLength (IEntry.extra entry))
      |> BinaryStream.writeInt16 0x0000
      |> BinaryStream.writeInt16 0x0000
      |> BinaryStream.writeInt16 0x0000
      |> BinaryStream.writeInt32 0x00000000
      |> BinaryStream.writeInt32 fileOffset
      |> BinaryStream.writeBytes (IEntry.nameBuffer entry)
      |> BinaryStream.writeBytes (IEntry.extra entry)
      |> BinaryStream.getByteArray in
  enqueue centralDirectoryFileHeader ;;;
  let! cursor := get offset in
  put (set_offset (cursor + byteLength centralDirectoryFileHeader)).

(** Lines 104-148: CENTRAL DIRECTORY FILE HEADER. *)
Definition centralDirectory : M unit :=
  let! cursor := get offset in
  put (set_centralOffset cursor) ;;;
  let! names := get (fun z => Object_keys (entries z)) in
  forEach names centralDirectoryFileHeader ;;;
  let! cursor := get offset in
  let! centralOffset := get centralOffset in
  put (set_centralSize (cursor - centralOffset)).

(** Lines 150-176: ZIP64 END OF CENTRAL DIRECTORY RECORD / LOCATOR.  The
    condition of line 150 is the method [isZip64] of the class, not its
    result. *)
Definition zip64EndOfCentralDirectory : M unit :=
  if methodReference isZip64 then
    let! entriesLength := get (fun z => Z.of_nat (length (Object_keys (entries z)))) in
    let! centralSize := get centralSize in
    let! centralOffset := get centralOffset in
    let zip64EOCDirectoryRecord :=
      BinaryStream.new
        |> BinaryStream.writeInt32 SIG_ZIP64_EOCD
        |> BinaryStream.writeBigInt64 44
        |> BinaryStream.writeInt16 0x002D
        |> BinaryStream.writeInt16 0x002D
        |> BinaryStream.writeInt32 0
        |> BinaryStream.writeInt32 0
        |> BinaryStream.writeBigInt64 entriesLength
        |> BinaryStream.writeBigInt64 entriesLength
        |> BinaryStream.writeBigInt64 centralSize
        |> BinaryStream.writeBigInt64 centralOffset
        |> BinaryStream.getByteArray in
    enqueue zip64EOCDirectoryRecord ;;;
    let! cursor := get offset in
    put (set_offset (cursor + byteLength zip64EOCDirectoryRecord)) ;;;
    let zip64EOCDirectoryLocator :=
      BinaryStream.new
        |> BinaryStream.writeInt32 SIG_ZIP64_EOCD_LOC
        |> BinaryStream.writeInt32 0
        |> BinaryStream.writeBigInt64 (centralOffset + centralSize)
        |> BinaryStream.writeInt32 1
        |> BinaryStream.getByteArray in
    enqueue zip64EOCDirectoryLocator ;;;
    let! cursor := get offset in
    put (set_offset (cursor + byteLength zip64EOCDirectoryLocator))
  else ret tt.

(** Lines 178-199: END OF CENTRAL DIRECTORY RECORD.  The condition of line
    181 is again the method [isZip64] of the class. *)
Definition endOfCentralDirectory : M unit :=
  let! entriesSize := get (fun z => Z.of_nat (length (Object_keys (entries z)))) in
  let! centralSize := get centralSize in
  let! centralOffset := get centralOffset in
  let '(entriesSize, centralSize, centralOffset) :=
    if methodReference isZip64
    then (ZIP64_MAGIC_SHORT, ZIP64_MAGIC, ZIP64_MAGIC)
    else (entriesSize, centralSize, centralOffset) in
  let endOfCentralDirectoryRecord :=
    BinaryStream.new
      |> BinaryStream.writeInt32 SIG_EOCD
      |> BinaryStream.writeInt16 0
      |> BinaryStream.writeInt16 0
      |> BinaryStream.writeInt16 entriesSize
      |> BinaryStream.writeInt16 entriesSize
      |> BinaryStream.writeInt32 centralSize
      |> BinaryStream.writeInt32 centralOffset
      |> BinaryStream.writeInt16 0
      |> BinaryStream.getByteArray in
  enqueue endOfCentralDirectoryRecord ;;;
  let! cursor := get offset in
  put (set_offset (cursor + byteLength endOfCentralDirectoryRecord)).

Definition flush : M unit :=
  centralDirectory ;;;
  zip64EndOfCentralDirectory ;;;
  endOfCentralDirectory.

(** *** The stream that drives the transformer *)

(** The transformer is fed one item at a time: [transform] runs to
    completion on each item, with the clock reading [now] of that call. *)
Fixpoint transformAll (items : list (Date * Entry.t)) : M unit :=
  match items with
  | [] => ret tt
  | (now, entry) :: rest => transform now entry ;;; transformAll rest
  end.

(** A whole archive: every item, then [flush]. *)
Definition archive (items : list (Date * Entry.t)) : M unit :=
  transformAll items ;;; flush.

End WithCollaborators.
End ZipTransformer.

(** ** The record layouts of the specification *)

Module Layout.
Section WithCollaborators.
Context `{Collaborators}.

(** Section 6 of the specification, field by field, every integer
    little-endian.  These follow the words of the specification; the
    theorems compare them with what the class enqueues. *)

Definition localFileHeaderRecord (dosDateTime : Z) (name : Uint8Array) : Uint8Array :=
  le_bytes 4 SIG_LFH ++ le_bytes 2 0x002D ++ le_bytes 2 0x0808 ++ le_bytes 2 0
  ++ le_bytes 4 dosDateTime
  ++ le_bytes 4 0 ++ le_bytes 4 0 ++ le_bytes 4 0
  ++ le_bytes 2 (byteLength name) ++ le_bytes 2 0
  ++ name.

(** Two 4-byte size fields, or two 8-byte ones when [wide]. *)
Definition dataDescriptorRecord (wide : bool) (checksum compressedSize size : Z) : Uint8Array :=
  le_bytes 4 SIG_DD ++ le_bytes 4 checksum
  ++ (if wide
      then le_bytes 8 compressedSize ++ le_bytes 8 size
      else le_bytes 4 compressedSize ++ le_bytes 4 size).

Definition zip64ExtraField (size compressedSize offset : Z) : Uint8Array :=
  le_bytes 2 ZIP64_EXTRA_ID ++ le_bytes 2 24
  ++ le_bytes 8 size ++ le_bytes 8 compressedSize ++ le_bytes 8 offset.

Definition centralDirectoryRecord
    (dosDateTime checksum compressedSize size offset : Z)
    (name extra : Uint8Array) : Uint8Array :=
  le_bytes 4 SIG_CFH ++ le_bytes 2 0x002D ++ le_bytes 2 0x002D
  ++ le_bytes 2 0x0808 ++ le_bytes 2 0
  ++ le_bytes 4 dosDateTime ++ le_bytes 4 checksum
  ++ le_bytes 4 compressedSize ++ le_bytes 4 size
  ++ le_bytes 2 (byteLength name) ++ le_bytes 2 (byteLength extra)
  ++ le_bytes 2 0 ++ le_bytes 2 0 ++ le_bytes 2 0 ++ le_bytes 4 0
  ++ le_bytes 4 offset
  ++ name ++ extra.

Definition zip64EndRecord (count directorySize directoryOffset : Z)
    : Uint8Array :=
  le_bytes 4 SIG_ZIP64_EOCD ++ le_bytes 8 44
  ++ le_bytes 2 0x002D ++ le_bytes 2 0x002D
  ++ le_bytes 4 0 ++ le_bytes 4 0
  ++ le_bytes 8 count ++ le_bytes 8 count
  ++ le_bytes 8 directorySize ++ le_bytes 8 directoryOffset.

Definition zip64Locator (recordOffset : Z) : Uint8Array :=
  le_bytes 4 SIG_ZIP64_EOCD_LOC ++ le_bytes 4 0
  ++ le_bytes 8 recordOffset ++ le_bytes 4 1.

Definition endRecord (count directorySize directoryOffset : Z) : Uint8Array :=
  le_bytes 4 SIG_EOCD ++ le_bytes 2 0 ++ le_bytes 2 0
  ++ le_bytes 2 count ++ le_bytes 2 count
  ++ le_bytes 4 directorySize ++ le_bytes 4 directoryOffset
  ++ le_bytes 2 0.

End WithCollaborators.
End Layout.

(** ** What one item leaves behind, in closed form *)

Section ClosedForms.
Context `{Collaborators}.

(** The chunks that the content source of an item delivers. *)
Definition contentOf (entry : Entry.t) : list Uint8Array :=
  match Entry.stream entry with
  | Some chunks => chunks
  | None => []
  end.

(** An entry object after the read loop has seen [chunks]. *)
Definition relayed (chunks : list Uint8Array) (e : IEntry.t) : IEntry.t :=
  {| IEntry.offset := IEntry.offset e;
     IEntry.crc := fold_left Crc32_append chunks (IEntry.crc e);
     IEntry.compressedSize := IEntry.compressedSize e + totalBytes chunks;
     IEntry.size := IEntry.size e + totalBytes chunks;
     IEntry.nameBuffer := IEntry.nameBuffer e;
     IEntry.date := IEntry.date e;
     IEntry.extra := IEntry.extra e |}.

(** The entry object that [transform] creates at cursor [cursor], as it
    stands when [transform] returns. *)
Definition entryOf (cursor : Z) (now : Date) (entry : Entry.t) : IEntry.t :=
  {| IEntry.offset := cursor;
     IEntry.crc := fold_left Crc32_append (contentOf entry) Crc32_new;
     IEntry.compressedSize := totalBytes (contentOf entry);
     IEntry.size := totalBytes (contentOf entry);
     IEntry.nameBuffer := textEncoder_encode (trim (Entry.name entry));
     IEntry.date := ZipTransformer.entryDate now entry;
     IEntry.extra := [] |}.

(** The local file header of an entry object. *)
Definition headerOf (e : IEntry.t) : Uint8Array :=
  Layout.localFileHeaderRecord (getDateTimeDOS (IEntry.date e)) (IEntry.nameBuffer e).

(** The data descriptor with 8-byte size fields of an entry object. *)
Definition wideDescriptorOf (e : IEntry.t) : Uint8Array :=
  Layout.dataDescriptorRecord true (Crc32_get (IEntry.crc e))
    (IEntry.compressedSize e) (IEntry.size e).

(** The central-directory record with sentinel fields and a Zip64 extra
    field of an entry object. *)
Definition escalatedRecordOf (e : IEntry.t) : Uint8Array :=
  Layout.centralDirectoryRecord
    (getDateTimeDOS (IEntry.date e)) (Crc32_get (IEntry.crc e))
    0xFFFFFFFF 0xFFFFFFFF 0xFFFFFFFF
    (IEntry.nameBuffer e)
    (Layout.zip64ExtraField (IEntry.size e) (IEntry.compressedSize e) (IEntry.offset e)).

(** The central-directory record with literal fields and no extra field of
    an entry object. *)
Definition literalRecordOf (e : IEntry.t) : Uint8Array :=
  Layout.centralDirectoryRecord
    (getDateTimeDOS (IEntry.date e)) (Crc32_get (IEntry.crc e))
    (IEntry.compressedSize e) (IEntry.size e) (IEntry.offset e)
    (IEntry.nameBuffer e) [].

(** The chunks that [transform] enqueues for an item, in order. *)
Definition chunksOf (cursor : Z) (now : Date) (entry : Entry.t) : list Uint8Array :=
  [headerOf (entryOf cursor now entry)]
  ++ contentOf entry
  ++ [wideDescriptorOf (entryOf cursor now entry)].

(** The world after [transform now entry]. *)
Definition transformed (now : Date) (entry : Entry.t) (w : ZipTransformer.World)
    : ZipTransformer.World :=
  let z := ZipTransformer.this w in
  let r := length (ZipTransformer.store w) in
  let cursor := ZipTransformer.offset z in
  {| ZipTransformer.this :=
       {| ZipTransformer.forceZip64 := ZipTransformer.forceZip64 z;
          ZipTransformer.entry := Some r;
          ZipTransformer.entries :=
            assign (ZipTransformer.entries z) (trim (Entry.name entry)) r;
          ZipTransformer.offset := cursor + totalBytes (chunksOf cursor now entry);
          ZipTransformer.centralOffset := ZipTransformer.centralOffset z;
          ZipTransformer.centralSize := ZipTransformer.centralSize z |};
     ZipTransformer.store := ZipTransformer.store w ++ [entryOf cursor now entry];
     ZipTransformer.enqueued := ZipTransformer.enqueued w ++ chunksOf cursor now entry |}.

(** The worlds after a sequence of items. *)
Definition transformedAll (items : list (Date * Entry.t)) (w : ZipTransformer.World)
    : ZipTransformer.World :=
  fold_left (fun w item => transformed (fst item) (snd item) w) items w.

(** The entry objects that a sequence of items creates from cursor
    [cursor] on, in the order of their creation. *)
Fixpoint createdFrom (cursor : Z) (items : list (Date * Entry.t)) : list IEntry.t :=
  match items with
  | [] => []
  | (now, entry) :: rest =>
      entryOf cursor now entry
      :: createdFrom (cursor + totalBytes (chunksOf cursor now entry)) rest
  end.

(** A central-directory record describes an entry object when it is the
    record of that object, in the escalated or in the literal form. *)
Definition describes (record : Uint8Array) (e : IEntry.t) : Prop :=
  record = escalatedRecordOf e \/ record = literalRecordOf e.

(** The record that the directory loop enqueues for [name]. *)
Definition recordNamed (o : JSObject ZipTransformer.ref) (st : list IEntry.t)
    (name : string) : option Uint8Array :=
  match getOwn o name with
  | Some r =>
      match st !! r with
      | Some e => Some (escalatedRecordOf e)
      | None => None
      end
  | None => None
  end.

(** The records that the directory loop enqueues for [names], in order. *)
Fixpoint recordsNamed (o : JSObject ZipTransformer.ref) (st : list IEntry.t)
    (names : list string) : list Uint8Array :=
  match names with
  | [] => []
  | name :: rest =>
      match recordNamed o st name with
      | Some record => record :: recordsNamed o st rest
      | None => recordsNamed o st rest
      end
  end.

(** The central directory that [flush] enqueues. *)
Definition directoryOf (w : ZipTransformer.World) : list Uint8Array :=
  recordsNamed (ZipTransformer.entries (ZipTransformer.this w))
               (ZipTransformer.store w)
               (Object_keys (ZipTransformer.entries (ZipTransformer.this w))).

(** The number of names that [flush] counts. *)
Definition entryCount (w : ZipTransformer.World) : Z :=
  Z.of_nat (length (Object_keys (ZipTransformer.entries (ZipTransformer.this w)))).

(** The three records that follow the directory in what [flush] enqueues. *)
Definition endRecordsOf (w : ZipTransformer.World) : list Uint8Array :=
  let directoryOffset := ZipTransformer.offset (ZipTransformer.this w) in
  let directorySize := totalBytes (directoryOf w) in
  [ Layout.zip64EndRecord (entryCount w) directorySize directoryOffset;
    Layout.zip64Locator (directoryOffset + directorySize);
    Layout.endRecord 0xFFFF 0xFFFFFFFF 0xFFFFFFFF ].

(** Every reference held by the name map points into the store. *)
Definition wellFormed (w : ZipTransformer.World) : Prop :=
  Forall (fun kv => (snd kv < length (ZipTransformer.store w))%nat)
         (ZipTransformer.entries (ZipTransformer.this w)).

(** The cursor counts the bytes enqueued so far. *)
Definition counted (w : ZipTransformer.World) : Prop :=
  ZipTransformer.offset (ZipTransformer.this w) = totalBytes (ZipTransformer.enqueued w).

End ClosedForms.

(** ** The two statements about names, in the words of the specification *)

Section NameClaims.
Context `{Collaborators}.

(** The trimmed names of a sequence of items. *)
Definition namesOf (items : list (Date * Entry.t)) : list string :=
  map (fun item => trim (Entry.name (snd item))) items.

(** Section 3: the creation order governs the sequence of central-directory
    records.  The directory loop enqueues one record for each entry
    created, the i-th record describing the i-th entry. *)
Definition directoryInCreationOrder (items : list (Date * Entry.t)) : Prop :=
  exists w w1 records,
    ZipTransformer.exec (ZipTransformer.transformAll items) ZipTransformer.new = Some w
    /\ ZipTransformer.exec ZipTransformer.centralDirectory w = Some w1
    /\ ZipTransformer.enqueued w1 = ZipTransformer.enqueued w ++ records
    /\ Forall2 describes records (createdFrom 0 items).

(** Section 9: two items of one trimmed name anywhere in an archive, the
    first after the items [before], the second after the items [between],
    followed by the items [after], and then [flush].

    The lookup structure: the name is taken when the second comes, leads to
    the second right after it and, at the end, to the last item of that
    name, which is the second or one of the items [after]; no name leads to
    the first any more.  The output:
    the header, the content and the descriptor of the first and of the
    second are where they were enqueued, in front of the directory and the
    three end records.  The directory: the names that [Object.keys] lists
    are distinct, the name is one of them, and the directory holds one
    record for each listed name, one after the other, each describing the
    object that the name leads to.  The count: the Zip64 end record that
    [flush] enqueues holds the number of names listed, which the second
    addition did not raise and which is less than the number of items. *)
Definition duplicateOverwrites
    (before : list (Date * Entry.t)) (now1 : Date) (item1 : Entry.t)
    (between : list (Date * Entry.t)) (now2 : Date) (item2 : Entry.t)
    (after : list (Date * Entry.t)) : Prop :=
  let name := trim (Entry.name item2) in
  let items := before ++ (now1, item1) :: between ++ (now2, item2) :: after in
  let first := length before in
  let second := S (length before + length between) in
  exists w1 w2 w w3 pre mid post directory zip64 locator last r1 r,
    ZipTransformer.exec
      (ZipTransformer.transformAll (before ++ (now1, item1) :: between))
      ZipTransformer.new = Some w1
    /\ ZipTransformer.exec (ZipTransformer.transform now2 item2) w1 = Some w2
    /\ ZipTransformer.exec (ZipTransformer.transformAll after) w2 = Some w
    /\ ZipTransformer.exec (ZipTransformer.transformAll items) ZipTransformer.new = Some w
    /\ ZipTransformer.exec ZipTransformer.flush w = Some w3
    /\ (let names := ZipTransformer.entries (ZipTransformer.this w) in
        let cursor1 := totalBytes pre in
        let cursor2 := totalBytes (pre ++ chunksOf cursor1 now1 item1 ++ mid) in
        let output := pre ++ chunksOf cursor1 now1 item1 ++ mid
                          ++ chunksOf cursor2 now2 item2 ++ post in
        getOwn (ZipTransformer.entries (ZipTransformer.this w1)) name = Some r1
        /\ (first <= r1 < second)%nat
        /\ getOwn (ZipTransformer.entries (ZipTransformer.this w2)) name = Some second
        /\ getOwn names name = Some r
        /\ (r = second \/ (second < r)%nat /\ name ∈ namesOf after)
        /\ namesOf items !! r = Some name
        /\ Forall (fun later => later <> name) (drop (S r) (namesOf items))
        /\ (forall k, getOwn names k <> Some first)
        /\ ZipTransformer.store w !! first = Some (entryOf cursor1 now1 item1)
        /\ ZipTransformer.store w !! second = Some (entryOf cursor2 now2 item2)
        /\ ZipTransformer.enqueued w = output
        /\ ZipTransformer.enqueued w3 = output ++ directory ++ [zip64; locator; last]
        /\ NoDup (Object_keys names)
        /\ name ∈ Object_keys names
        /\ Forall2 (fun key record =>
                      exists r' e, getOwn names key = Some r'
                                   /\ ZipTransformer.store w !! r' = Some e
                                   /\ describes record e)
                   (Object_keys names) directory
        /\ zip64 = Layout.zip64EndRecord (Z.of_nat (length (Object_keys names)))
                     (totalBytes directory) (totalBytes output)
        /\ entryCount w2 = entryCount w1
        /\ (length (Object_keys names) < length items)%nat).

(** Section 9, the count as the specification words it: the end record
    that closes the output of [flush] holds the number of names listed. *)
Definition endRecordCounts (items : list (Date * Entry.t)) : Prop :=
  exists w w3 front size offset,
    ZipTransformer.exec (ZipTransformer.transformAll items) ZipTransformer.new = Some w
    /\ ZipTransformer.exec ZipTransformer.flush w = Some w3
    /\ ZipTransformer.enqueued w3
       = front ++ [Layout.endRecord (entryCount w) size offset].

End NameClaims.

(** ** Whole archives, in closed form *)

Section ArchiveForms.
Context `{Collaborators}.

(** The chunks that a sequence of items leaves in the output from cursor
    [cursor] on: the header, the content and the descriptor of each item,
    one item after the other. *)
Fixpoint streamFrom (cursor : Z) (items : list (Date * Entry.t)) : list Uint8Array :=
  match items with
  | [] => []
  | (now, entry) :: rest =>
      chunksOf cursor now entry
      ++ streamFrom (cursor + totalBytes (chunksOf cursor now entry)) rest
  end.

(** The names of a name map after one more name: "__proto__" and a name
    already there change nothing, a new name goes to the end. *)
Definition addName (names : list string) (name : string) : list string :=
  if (name =? "__proto__")%string then names
  else if decide (name ∈ names) then names
  else names ++ [name].

(** The names that a sequence of items leaves in the name map, in the order
    of their first addition. *)
Definition namesListed (items : list (Date * Entry.t)) : list string :=
  fold_left addName (namesOf items) [].

(** Two array indices in ascending order. *)
Definition indexLe (a b : string) : Prop :=
  match arrayIndex a, arrayIndex b with
  | Some m, Some n => (m <= n)%N
  | _, _ => False
  end.

(** What [flush] may do to an entry object: nothing, or set its extra
    field to the Zip64 extra field of its own sizes and offset. *)
Definition extraSet (e e' : IEntry.t) : Prop :=
  e' = e
  \/ e' = IEntry.set_extra
            (Layout.zip64ExtraField (IEntry.size e) (IEntry.compressedSize e)
                                    (IEntry.offset e)) e.

(** The sum of a list of integers. *)
Definition sumZ (l : list Z) : Z := fold_right Z.add 0 l.

(** The bytes that [transform] enqueues for an item: 30 bytes of header, the
    name, the content, 24 bytes of descriptor. *)
Definition entryBytes (item : Date * Entry.t) : Z :=
  54 + byteLength (textEncoder_encode (trim (Entry.name (snd item))))
  + totalBytes (contentOf (snd item)).

(** The bytes of the directory record of a name: 46 bytes, the name, 28
    bytes of Zip64 extra field. *)
Definition recordBytes (name : string) : Z :=
  74 + byteLength (textEncoder_encode name).

End ArchiveForms.

(** ** A set of collaborators to run the class on *)

Module Reference.

(** Modelled from the spec: the rolling CRC-32 accumulator (append bytes, read
    current checksum), as the reflected polynomial 0xEDB88320 taken one bit
    at a time. *)
Definition crcBit (c : Z) : Z :=
  if Z.testbit c 0 then Z.lxor (Z.shiftr c 1) 0xEDB88320 else Z.shiftr c 1.

Definition crcByte (c b : Z) : Z :=
  crcBit (crcBit (crcBit (crcBit (crcBit (crcBit (crcBit (crcBit (Z.lxor c b)))))))).

Definition crcAppend (c : Z) (bytes : Uint8Array) : Z := fold_left crcByte bytes c.

Definition crcGet (c : Z) : Z := Z.lxor c 0xFFFFFFFF.

(** A fixed date for the samples: every instant maps to the DOS epoch,
    1980-01-01 00:00:00.  No theorem depends on it. *)
Definition dosEpoch (d : Date) : Z := 0x00210000.

(** The signatures of the ZIP application note, the CRC-32 above and the
    constant date. *)
#[export] Instance collaborators : Collaborators := {|
  SIG_LFH := 0x04034b50;
  SIG_DD := 0x08074b50;
  SIG_CFH := 0x02014b50;
  SIG_EOCD := 0x06054b50;
  SIG_ZIP64_EOCD := 0x06064b50;
  SIG_ZIP64_EOCD_LOC := 0x07064b50;
  ZIP64_EXTRA_ID := 0x0001;
  Crc32 := Z;
  Crc32_new := 0xFFFFFFFF;
  Crc32_append := crcAppend;
  Crc32_get := crcGet;
  getDateTimeDOS := dosEpoch
|}.

End Reference.

(** ** Sample inputs *)

Module Samples.

Definition ascii_AB : Uint8Array := [65; 66].

(** The item of the concrete scenario of section 8: "x.txt" holding "AB". *)
Definition xtxt : Entry.t :=
  {| Entry.name := "x.txt"; Entry.lastModified := Some 1; Entry.stream := Some [ascii_AB] |}.

(** An item without content and without a time stamp. *)
Definition empty (name : string) : Entry.t :=
  {| Entry.name := name; Entry.lastModified := None; Entry.stream := None |}.

(** An entry object of 4 GiB, as the read loop would leave it. *)
Definition bigEntry : @IEntry.t Reference.collaborators :=
  {| IEntry.offset := 0;
     IEntry.crc := @Crc32_new Reference.collaborators;
     IEntry.compressedSize := 0x100000000;
     IEntry.size := 0x100000000;
     IEntry.nameBuffer := textEncoder_encode "big.bin";
     IEntry.date := 1;
     IEntry.extra := [] |}.

(** A world whose name map leads to that entry alone, with the cursor after
    its 37 bytes of header, its content and its 24 bytes of descriptor; the
    output so far is left out. *)
Definition bigWorld : @ZipTransformer.World Reference.collaborators :=
  {| ZipTransformer.this :=
       {| ZipTransformer.forceZip64 := false;
          ZipTransformer.entry := Some 0%nat;
          ZipTransformer.entries := [("big.bin", 0%nat)];
          ZipTransformer.offset := 0x100000000 + 61;
          ZipTransformer.centralOffset := 0;
          ZipTransformer.centralSize := 0 |};
     ZipTransformer.store := [bigEntry];
     ZipTransformer.enqueued := [] |}.

End Samples.

(** * Theorems *)

Import ZipTransformer.

Section Facts.
Context `{Collaborators}.

Lemma totalBytes_app (a b : list Uint8Array) :
  totalBytes (a ++ b) = totalBytes a + totalBytes b.
Proof.
  induction a as [|c a IH]; simpl; [reflexivity|].
  rewrite IH. lia.
Qed.

Lemma totalBytes_nonneg (a : list Uint8Array) : 0 <= totalBytes a.
Proof.
  induction a as [|c a IH]; simpl; [lia|].
  unfold byteLength. lia.
Qed.

Lemma length_le_bytes (n : nat) (v : Z) : length (le_bytes n v) = n.
Proof.
  revert v. induction n as [|n IH]; intros v; simpl; [reflexivity|].
  now rewrite IH.
Qed.

(** *** Running a method body one statement at a time *)

Lemma bind_eq {A B : Type} (m : M A) (k : A -> M B) (w w' : World) (a : A) :
  m w = Some (a, w') -> bind m k w = k a w'.
Proof. intros Hm. unfold bind. now rewrite Hm. Qed.

Lemma bind_assoc {A B C : Type} (m : M A) (k : A -> M B) (k' : B -> M C) (w : World) :
  bind (bind m k) k' w = bind m (fun a => bind (k a) k') w.
Proof. unfold bind. destruct (m w) as [[a w']|]; reflexivity. Qed.

Lemma thisEntry_eq (w : World) (r : ref) :
  entry (this w) = Some r -> thisEntry w = Some (r, w).
Proof. intros Hr. unfold thisEntry. now rewrite Hr. Qed.

Lemma deref_eq (w : World) (r : ref) (e : IEntry.t) :
  store w !! r = Some e -> deref r w = Some (e, w).
Proof. intros He. unfold deref. now rewrite He. Qed.

Lemma update_eq (w : World) (r : ref) (f : IEntry.t -> IEntry.t) (e : IEntry.t) :
  store w !! r = Some e ->
  update r f w =
    Some (tt, {| this := this w; store := <[r := f e]> (store w);
                 enqueued := enqueued w |}).
Proof. intros He. unfold update. now rewrite He. Qed.

Lemma entryNamed_eq (w : World) (name : string) (r : ref) :
  getOwn (entries (this w)) name = Some r -> entryNamed name w = Some (r, w).
Proof. intros Hr. unfold entryNamed. now rewrite Hr. Qed.

End Facts.

Ltac lookup_now :=
  simpl;
  first
    [ eassumption
    | rewrite list_lookup_insert_eq by (rewrite ?length_insert; eassumption);
      reflexivity
    | rewrite lookup_app_r by reflexivity;
      rewrite Nat.sub_diag; reflexivity ].

Ltac primitive :=
  first
    [ apply thisEntry_eq; simpl; first [eassumption | reflexivity]
    | eapply deref_eq; lookup_now
    | eapply update_eq; lookup_now
    | apply entryNamed_eq; simpl; eassumption
    | reflexivity ].

(** Runs the first statement of a body of the form [bind m k]. *)
Ltac step :=
  lazymatch goal with
  | |- bind (bind ?m ?k) ?k' ?w = _ => rewrite (bind_assoc m k k' w)
  | |- bind ?m ?k ?w = _ =>
      erewrite (bind_eq m k w) by (solve [primitive]); cbv beta match
  end.

Section Objects.
Context {V : Type}.
Implicit Types (o : JSObject V) (k : string) (v : V).

Lemma getOwn_elem o k : k ∈ map fst o -> exists v, getOwn o k = Some v /\ (k, v) ∈ o.
Proof.
  induction o as [|[k' v'] o IH]; simpl; intros Hk.
  - inversion Hk.
  - destruct (String.eqb_spec k' k) as [->|Hne].
    + exists v'. split; [reflexivity|]. left.
    + inversion Hk; subst; [congruence|].
      destruct IH as (v & Hv & Hin); [assumption|].
      exists v. split; [assumption|]. now right.
Qed.

Lemma getOwn_Some_elem o k v : getOwn o k = Some v -> (k, v) ∈ o.
Proof.
  induction o as [|[k' v'] o IH]; simpl; intros Hk; [discriminate|].
  destruct (String.eqb_spec k' k) as [->|Hne].
  - injection Hk as ->. left.
  - right. now apply IH.
Qed.

Lemma insertIndex_elem (n : N) k (l : list (N * string)) (p : N * string) :
  p ∈ insertIndex n k l <-> p = (n, k) \/ p ∈ l.
Proof.
  induction l as [|[m k'] l IH]; simpl.
  - rewrite list_elem_of_singleton. split; [now left|].
    intros [?|Hp]; [assumption|inversion Hp].
  - destruct (n <=? m)%N.
    + now rewrite elem_of_cons.
    + rewrite !elem_of_cons, IH. tauto.
Qed.

Lemma indexKeys_elem (ks : list string) (n : N) k :
  (n, k) ∈ indexKeys ks <-> k ∈ ks /\ arrayIndex k = Some n.
Proof.
  induction ks as [|k' ks IH]; simpl.
  - split; [intros Hp; inversion Hp|intros [Hp _]; inversion Hp].
  - destruct (arrayIndex k') as [m|] eqn:Hm.
    + rewrite insertIndex_elem, IH, elem_of_cons. split.
      * intros [Heq|[? ?]]; [injection Heq as -> ->; auto|auto].
      * intros [[->|?] Hn]; [left; congruence|right; auto].
    + rewrite IH, elem_of_cons. split; [tauto|].
      intros [[->|?] Hn]; [congruence|auto].
Qed.

(** Every name that [Object.keys] lists is a key of the object. *)
Lemma Object_keys_elem o k : k ∈ Object_keys o -> k ∈ map fst o.
Proof.
  unfold Object_keys. rewrite elem_of_app. intros [Hk|Hk].
  - apply list_elem_of_In, in_map_iff in Hk. destruct Hk as ([n k'] & <- & Hin).
    apply list_elem_of_In, indexKeys_elem in Hin. tauto.
  - apply list_elem_of_In, filter_In in Hk. apply list_elem_of_In. tauto.
Qed.

Lemma Object_keys_own o k : k ∈ Object_keys o -> exists v, getOwn o k = Some v /\ (k, v) ∈ o.
Proof. intros Hk. apply getOwn_elem. now apply Object_keys_elem. Qed.

Lemma getOwn_putOwn_eq o k v : getOwn (putOwn o k v) k = Some v.
Proof.
  induction o as [|[k' v'] o IH]; simpl.
  - now rewrite String.eqb_refl.
  - destruct (String.eqb_spec k' k) as [->|Hne]; simpl.
    + now rewrite String.eqb_refl.
    + destruct (String.eqb_spec k' k); [congruence|exact IH].
Qed.

Lemma getOwn_putOwn_ne o k k' v : k' <> k -> getOwn (putOwn o k v) k' = getOwn o k'.
Proof.
  intros Hne. induction o as [|[k0 v0] o IH]; simpl.
  - destruct (String.eqb_spec k k'); [congruence|reflexivity].
  - destruct (String.eqb_spec k0 k) as [->|Hk]; simpl.
    + destruct (String.eqb_spec k k'); [congruence|reflexivity].
    + destruct (String.eqb_spec k0 k'); [reflexivity|exact IH].
Qed.

Lemma keys_putOwn_old o k v : k ∈ map fst o -> map fst (putOwn o k v) = map fst o.
Proof.
  induction o as [|[k' v'] o IH]; simpl; intros Hk.
  - inversion Hk.
  - destruct (String.eqb_spec k' k) as [->|Hne]; simpl; [reflexivity|].
    f_equal. apply IH. inversion Hk; subst; [congruence|assumption].
Qed.

Lemma putOwn_fresh o k v : k ∉ map fst o -> putOwn o k v = o ++ [(k, v)].
Proof.
  induction o as [|[k' v'] o IH]; simpl; intros Hk; [reflexivity|].
  rewrite not_elem_of_cons in Hk. destruct Hk as [Hne Hk].
  destruct (String.eqb_spec k' k) as [->|_]; [congruence|].
  now rewrite IH.
Qed.

Lemma keys_putOwn_elem o k v : k ∈ map fst (putOwn o k v).
Proof.
  induction o as [|[k' v'] o IH]; simpl.
  - left.
  - destruct (String.eqb_spec k' k) as [->|_]; simpl; [left|now right].
Qed.

Lemma NoDup_keys_putOwn o k v : NoDup (map fst o) -> NoDup (map fst (putOwn o k v)).
Proof.
  intros Hnd. destruct (decide (k ∈ map fst o)) as [Hin|Hout].
  - now rewrite keys_putOwn_old.
  - rewrite putOwn_fresh, map_app by assumption. simpl.
    apply NoDup_app. split; [assumption|]. split.
    + intros x Hx Hx'. apply list_elem_of_singleton in Hx'. now subst.
    + apply NoDup_singleton.
Qed.

(** With distinct keys, every pair of the object is what a lookup finds. *)
Lemma getOwn_NoDup o k v : NoDup (map fst o) -> (k, v) ∈ o -> getOwn o k = Some v.
Proof.
  induction o as [|[k' v'] o IH]; simpl; intros Hnd Hin.
  - inversion Hin.
  - apply NoDup_cons in Hnd. destruct Hnd as [Hk' Hnd].
    destruct (String.eqb_spec k' k) as [->|Hne].
    + apply elem_of_cons in Hin. destruct Hin as [Heq|Hin]; [congruence|].
      exfalso. apply Hk'. apply list_elem_of_In, in_map_iff.
      exists (k, v). split; [reflexivity|]. now apply list_elem_of_In.
    + apply elem_of_cons in Hin. destruct Hin as [Heq|Hin]; [congruence|].
      now apply IH.
Qed.

Lemma insertIndex_Permutation (n : N) k (l : list (N * string)) :
  insertIndex n k l ≡ₚ (n, k) :: l.
Proof.
  induction l as [|[m k'] l IH]; simpl; [reflexivity|].
  destruct (n <=? m)%N; [reflexivity|].
  rewrite IH. apply Permutation_swap.
Qed.

Lemma indexKeys_Permutation (ks : list string) :
  map snd (indexKeys ks) ≡ₚ List.filter isArrayIndex ks.
Proof.
  induction ks as [|k ks IH]; simpl; [reflexivity|].
  unfold isArrayIndex at 1. destruct (arrayIndex k) as [n|]; [|exact IH].
  rewrite insertIndex_Permutation. simpl. now rewrite IH.
Qed.

Lemma filter_complement_Permutation {A : Type} (f : A -> bool) (l : list A) :
  List.filter f l ++ List.filter (fun x => negb (f x)) l ≡ₚ l.
Proof.
  induction l as [|x l IH]; simpl; [reflexivity|].
  destruct (f x); simpl.
  - now rewrite IH.
  - rewrite <- Permutation_middle. now rewrite IH.
Qed.

(** [Object.keys] lists every key once. *)
Lemma Object_keys_Permutation o : Object_keys o ≡ₚ map fst o.
Proof.
  unfold Object_keys. rewrite indexKeys_Permutation.
  apply filter_complement_Permutation.
Qed.

Lemma indexKeys_none (ks : list string) :
  Forall (fun k => isArrayIndex k = false) ks -> indexKeys ks = [].
Proof.
  induction 1 as [|k ks Hk _ IH]; simpl; [reflexivity|].
  unfold isArrayIndex in Hk. destruct (arrayIndex k); [discriminate|exact IH].
Qed.

(** Without array indices among the keys, [Object.keys] is the order of
    creation. *)
Lemma Object_keys_creation o :
  Forall (fun k => isArrayIndex k = false) (map fst o) -> Object_keys o = map fst o.
Proof.
  intros Hks. unfold Object_keys. rewrite indexKeys_none by assumption. simpl.
  induction Hks as [|k ks Hk _ IH]; simpl; [reflexivity|].
  rewrite Hk. simpl. now rewrite IH.
Qed.

End Objects.

Section Transform.
Context `{Collaborators}.

(** The read loop, started on any entry object. *)
Lemma readLoop_spec (chunks : list Uint8Array) :
  forall (w : World) (r : ref) (e : IEntry.t),
    entry (this w) = Some r ->
    store w !! r = Some e ->
    readLoop chunks w =
      Some (tt, {| this := this w;
                   store := <[r := relayed chunks e]> (store w);
                   enqueued := enqueued w ++ chunks |}).
Proof.
  induction chunks as [|value rest IH]; intros w r e Hr He.
  - simpl. unfold ret. f_equal. f_equal. destruct w as [z st q]; simpl in *.
    rewrite app_nil_r. f_equal.
    replace (relayed [] e) with e.
    + symmetry. now apply list_insert_id.
    + destruct e; unfold relayed; simpl. f_equal; lia.
  - assert (Hlt : (r < length (store w))%nat) by (eapply lookup_lt_Some; eauto).
    simpl. do 8 step.
    erewrite IH; simpl; eauto.
    2:{ rewrite list_lookup_insert_eq; [reflexivity|]. rewrite !length_insert. exact Hlt. }
    rewrite !list_insert_insert_eq. rewrite <- app_assoc. simpl.
    f_equal. f_equal. f_equal.
    f_equal. destruct e; unfold relayed, IEntry.set_size, IEntry.set_compressedSize,
      IEntry.set_crc; simpl. f_equal; lia.
Qed.

Lemma length_localFileHeader (dos : Z) (name : Uint8Array) :
  byteLength (Layout.localFileHeaderRecord dos name) = 30 + byteLength name.
Proof.
  unfold Layout.localFileHeaderRecord, byteLength.
  rewrite !length_app, !length_le_bytes. lia.
Qed.

Lemma length_dataDescriptor (wide : bool) (c cs s : Z) :
  byteLength (Layout.dataDescriptorRecord wide c cs s) = if wide then 24 else 16.
Proof.
  unfold Layout.dataDescriptorRecord, byteLength.
  destruct wide; rewrite !length_app, !length_le_bytes; lia.
Qed.

Lemma defineEntry_spec (name : string) (nameBuffer : Uint8Array) (date : Date) (w : World) :
  defineEntry name nameBuffer date w =
    Some (tt, {| this := set_entry (length (store w))
                           (set_entries (assign (entries (this w)) name (length (store w)))
                                        (this w));
                 store := store w ++ [{| IEntry.offset := offset (this w);
                                         IEntry.crc := Crc32_new;
                                         IEntry.compressedSize := 0;
                                         IEntry.size := 0;
                                         IEntry.nameBuffer := nameBuffer;
                                         IEntry.date := date;
                                         IEntry.extra := [] |}];
                 enqueued := enqueued w |}).
Proof. reflexivity. Qed.

Lemma localFileHeader_spec (nameBuffer : Uint8Array) (date : Date)
    (w : World) (r : ref) (e : IEntry.t) :
  entry (this w) = Some r ->
  store w !! r = Some e ->
  IEntry.extra e = [] ->
  localFileHeader nameBuffer date w =
    Some (tt, {| this := set_offset
                           (offset (this w)
                            + byteLength (Layout.localFileHeaderRecord (getDateTimeDOS date) nameBuffer))
                           (this w);
                 store := store w;
                 enqueued := enqueued w
                             ++ [Layout.localFileHeaderRecord (getDateTimeDOS date) nameBuffer] |}).
Proof.
  intros Hr He Hx. unfold localFileHeader. do 4 step.
  unfold put. rewrite Hx.
  unfold BinaryStream.getByteArray, BinaryStream.writeBytes, BinaryStream.writeInt16,
    BinaryStream.writeInt32, BinaryStream.new, Layout.localFileHeaderRecord.
  rewrite app_nil_r, app_nil_l, <- !app_assoc. reflexivity.
Qed.

Lemma dataDescriptor_spec (w : World) (r : ref) (e : IEntry.t) :
  entry (this w) = Some r ->
  store w !! r = Some e ->
  dataDescriptor w =
    Some (tt, {| this := set_offset
                           (offset (this w)
                            + (IEntry.size e + byteLength (wideDescriptorOf e)))
                           (this w);
                 store := store w;
                 enqueued := enqueued w ++ [wideDescriptorOf e] |}).
Proof.
  intros Hr He. unfold dataDescriptor. do 5 step.
  unfold put, methodReference.
  unfold BinaryStream.getByteArray, BinaryStream.writeBigInt64,
    BinaryStream.writeInt32, BinaryStream.new, wideDescriptorOf, Layout.dataDescriptorRecord.
  rewrite app_nil_l, <- !app_assoc. reflexivity.
Qed.

Lemma fileData_spec (item : Entry.t) (w : World) (r : ref) (e : IEntry.t) :
  entry (this w) = Some r ->
  store w !! r = Some e ->
  fileData item w =
    Some (tt, {| this := this w;
                 store := <[r := relayed (contentOf item) e]> (store w);
                 enqueued := enqueued w ++ contentOf item |}).
Proof.
  intros Hr He. unfold fileData, contentOf.
  destruct (Entry.stream item) as [chunks|].
  - now apply readLoop_spec.
  - change (ret tt w) with (readLoop [] w). now apply readLoop_spec.
Qed.

Lemma lookup_snoc {A : Type} (l : list A) (x : A) : (l ++ [x]) !! length l = Some x.
Proof. rewrite lookup_app_r by reflexivity. now rewrite Nat.sub_diag. Qed.

Lemma insert_snoc {A : Type} (l : list A) (x y : A) :
  <[length l := y]> (l ++ [x]) = l ++ [y].
Proof.
  rewrite insert_app_r_alt by reflexivity. now rewrite Nat.sub_diag.
Qed.

Lemma relayed_fresh (cursor : Z) (now : Date) (item : Entry.t) :
  relayed (contentOf item)
    {| IEntry.offset := cursor;
       IEntry.crc := Crc32_new;
       IEntry.compressedSize := 0;
       IEntry.size := 0;
       IEntry.nameBuffer := textEncoder_encode (trim (Entry.name item));
       IEntry.date := entryDate now item;
       IEntry.extra := [] |}
  = entryOf cursor now item.
Proof. reflexivity. Qed.

Lemma totalBytes_chunksOf (cursor : Z) (now : Date) (item : Entry.t) :
  totalBytes (chunksOf cursor now item) =
    byteLength (headerOf (entryOf cursor now item))
    + (totalBytes (contentOf item)
       + byteLength (wideDescriptorOf (entryOf cursor now item))).
Proof.
  unfold chunksOf. rewrite !totalBytes_app. simpl. lia.
Qed.

(** [transform] always returns, and leaves the world [transformed]. *)
Lemma transform_spec (now : Date) (item : Entry.t) (w : World) :
  transform now item w = Some (tt, transformed now item w).
Proof.
  unfold transform.
  erewrite bind_eq by apply defineEntry_spec.
  erewrite bind_eq.
  2:{ eapply localFileHeader_spec; simpl;
        [reflexivity | apply lookup_snoc | reflexivity]. }
  erewrite bind_eq.
  2:{ eapply fileData_spec; simpl; [reflexivity | apply lookup_snoc]. }
  erewrite dataDescriptor_spec; simpl.
  2: reflexivity.
  2:{ rewrite insert_snoc. apply lookup_snoc. }
  rewrite relayed_fresh, insert_snoc.
  unfold transformed. rewrite totalBytes_chunksOf.
  unfold set_offset, set_entry, set_entries, chunksOf, headerOf; simpl.
  rewrite <- !app_assoc. simpl.
  do 4 f_equal. lia.
Qed.

End Transform.

Section Flush.
Context `{Collaborators}.

Lemma escalatedRecordOf_set_extra (x : Uint8Array) (e : IEntry.t) :
  escalatedRecordOf (IEntry.set_extra x e) = escalatedRecordOf e.
Proof. reflexivity. Qed.

(** One turn of the directory loop. *)
Lemma centralDirectoryFileHeader_spec (name : string) (w : World) (r : ref) (e : IEntry.t) :
  getOwn (entries (this w)) name = Some r ->
  store w !! r = Some e ->
  centralDirectoryFileHeader name w =
    Some (tt, {| this := set_offset (offset (this w) + byteLength (escalatedRecordOf e))
                                    (this w);
                 store := <[r := IEntry.set_extra
                                   (Layout.zip64ExtraField (IEntry.size e)
                                      (IEntry.compressedSize e) (IEntry.offset e)) e]>
                            (store w);
                 enqueued := enqueued w ++ [escalatedRecordOf e] |}).
Proof.
  intros Hr He.
  assert (Hlt : (r < length (store w))%nat) by (eapply lookup_lt_Some; eauto).
  unfold centralDirectoryFileHeader. do 2 step.
  unfold methodReference at 1. rewrite orb_true_l.
  do 5 step.
  unfold put. cbn [this store enqueued IEntry.set_extra IEntry.extra IEntry.date
    IEntry.crc IEntry.nameBuffer].
  assert (Hx : BinaryStream.new
           |> BinaryStream.writeInt16 ZIP64_EXTRA_ID
           |> BinaryStream.writeInt16 24
           |> BinaryStream.writeBigInt64 (IEntry.size e)
           |> BinaryStream.writeBigInt64 (IEntry.compressedSize e)
           |> BinaryStream.writeBigInt64 (IEntry.offset e)
           |> BinaryStream.getByteArray
         = Layout.zip64ExtraField (IEntry.size e) (IEntry.compressedSize e) (IEntry.offset e)).
  { unfold BinaryStream.getByteArray, BinaryStream.writeBigInt64, BinaryStream.writeInt16,
      BinaryStream.new, Layout.zip64ExtraField.
    rewrite app_nil_l, <- !app_assoc. reflexivity. }
  rewrite Hx.
  assert (Hrec : BinaryStream.new
      |> BinaryStream.writeInt32 SIG_CFH
      |> BinaryStream.writeInt16 0x002D
      |> BinaryStream.writeInt16 0x002D
      |> BinaryStream.writeInt16 0x0808
      |> BinaryStream.writeInt16 0x0000
      |> BinaryStream.writeInt32 (getDateTimeDOS (IEntry.date e))
      |> BinaryStream.writeInt32 (Crc32_get (IEntry.crc e))
      |> BinaryStream.writeInt32 ZIP64_MAGIC
      |> BinaryStream.writeInt32 ZIP64_MAGIC
      |> BinaryStream.writeInt16 (byteLength (IEntry.nameBuffer e))
      |> BinaryStream.writeInt16
           (byteLength (Layout.zip64ExtraField (IEntry.size e)
                          (IEntry.compressedSize e) (IEntry.offset e)))
      |> BinaryStream.writeInt16 0x0000
      |> BinaryStream.writeInt16 0x0000
      |> BinaryStream.writeInt16 0x0000
      |> BinaryStream.writeInt32 0x00000000
      |> BinaryStream.writeInt32 ZIP64_MAGIC
      |> BinaryStream.writeBytes (IEntry.nameBuffer e)
      |> BinaryStream.writeBytes
           (Layout.zip64ExtraField (IEntry.size e)
              (IEntry.compressedSize e) (IEntry.offset e))
      |> BinaryStream.getByteArray
      = escalatedRecordOf e).
  { unfold BinaryStream.getByteArray, BinaryStream.writeBytes, BinaryStream.writeInt32,
      BinaryStream.writeInt16, BinaryStream.new, escalatedRecordOf,
      Layout.centralDirectoryRecord, ZIP64_MAGIC.
    rewrite app_nil_l, <- !app_assoc. reflexivity. }
  rewrite Hrec. reflexivity.
Qed.

Lemma recordNamed_ext (o : JSObject ref) (st st' : list IEntry.t) (name : string) :
  escalatedRecordOf <$> st' = escalatedRecordOf <$> st ->
  recordNamed o st' name = recordNamed o st name.
Proof.
  intros Heq. unfold recordNamed. destruct (getOwn o name) as [r|]; [|reflexivity].
  assert (Hl : (escalatedRecordOf <$> st') !! r = (escalatedRecordOf <$> st) !! r)
    by now rewrite Heq.
  rewrite !list_lookup_fmap in Hl. revert Hl.
  destruct (st' !! r), (st !! r); cbn; congruence.
Qed.

Lemma recordsNamed_ext (o : JSObject ref) (st st' : list IEntry.t) (names : list string) :
  escalatedRecordOf <$> st' = escalatedRecordOf <$> st ->
  recordsNamed o st' names = recordsNamed o st names.
Proof.
  intros Heq. induction names as [|name names IH]; simpl; [reflexivity|].
  rewrite (recordNamed_ext o st st' name Heq), IH. reflexivity.
Qed.

(** The directory loop over any names that the object holds. *)
Lemma directoryLoop_spec (names : list string) :
  forall w : World,
    wellFormed w ->
    (forall name, name ∈ names -> name ∈ map fst (entries (this w))) ->
    exists st',
      forEach names centralDirectoryFileHeader w =
        Some (tt, {| this := set_offset
                               (offset (this w)
                                + totalBytes (recordsNamed (entries (this w)) (store w) names))
                               (this w);
                     store := st';
                     enqueued := enqueued w
                                 ++ recordsNamed (entries (this w)) (store w) names |})
      /\ escalatedRecordOf <$> st' = escalatedRecordOf <$> store w
      /\ length (recordsNamed (entries (this w)) (store w) names) = length names.
Proof.
  induction names as [|name names IH]; intros w Hwf Hin.
  - exists (store w). simpl. unfold ret. repeat split.
    destruct w as [[] ? ?]; unfold set_offset; simpl.
    rewrite Z.add_0_r, app_nil_r. reflexivity.
  - destruct (getOwn_elem (entries (this w)) name) as (r & Hr & Hel).
    { apply Hin. left. }
    assert (Hlt : (r < length (store w))%nat).
    { unfold wellFormed in Hwf. rewrite Forall_forall in Hwf.
      apply (Hwf (name, r)). exact Hel. }
    destruct (lookup_lt_is_Some_2 _ _ Hlt) as [e He].
    simpl forEach.
    erewrite bind_eq by (eapply centralDirectoryFileHeader_spec; eassumption).
    set (w1 := {| this := _; store := _; enqueued := _ |}).
    assert (Hst : escalatedRecordOf <$> store w1 = escalatedRecordOf <$> store w).
    { unfold w1; simpl. rewrite list_fmap_insert, escalatedRecordOf_set_extra.
      apply list_insert_id. rewrite list_lookup_fmap, He. reflexivity. }
    destruct (IH w1) as (st' & Hrun & Hst' & Hlen).
    { unfold wellFormed, w1; simpl. rewrite length_insert. exact Hwf. }
    { intros name' Hn. unfold w1; simpl. apply Hin. now right. }
    exists st'. 
    assert (Hrecs : recordsNamed (entries (this w1)) (store w1) names
                    = recordsNamed (entries (this w)) (store w) names).
    { unfold w1 at 1; simpl entries. now apply recordsNamed_ext. }
    rewrite Hrecs in Hrun, Hlen.
    split; [|split].
    + rewrite Hrun. simpl recordsNamed. unfold recordNamed. rewrite Hr, He.
      unfold w1, set_offset; simpl. rewrite <- app_assoc. simpl.
      do 4 f_equal. lia.
    + now rewrite Hst'.
    + simpl. unfold recordNamed. rewrite Hr, He. simpl. now rewrite Hlen.
Qed.

(** Lines 104-148 on a well-formed world. *)
Lemma centralDirectory_spec (w : World) :
  wellFormed w ->
  exists st',
    centralDirectory w =
      Some (tt, {| this := {| forceZip64 := forceZip64 (this w);
                              entry := entry (this w);
                              entries := entries (this w);
                              offset := offset (this w) + totalBytes (directoryOf w);
                              centralOffset := offset (this w);
                              centralSize := totalBytes (directoryOf w) |};
                   store := st';
                   enqueued := enqueued w ++ directoryOf w |})
    /\ escalatedRecordOf <$> st' = escalatedRecordOf <$> store w
    /\ length (directoryOf w) = length (Object_keys (entries (this w))).
Proof.
  intros Hwf.
  set (w0 := {| this := set_centralOffset (offset (this w)) (this w);
                store := store w; enqueued := enqueued w |}).
  destruct (directoryLoop_spec (Object_keys (entries (this w))) w0)
    as (st' & Hrun & Hst & Hlen).
  { exact Hwf. }
  { intros name Hn. now apply Object_keys_elem. }
  exists st'. split; [|split; [exact Hst|exact Hlen]].
  unfold centralDirectory. do 3 step.
  erewrite bind_eq by exact Hrun.
  do 2 step. unfold put, directoryOf, set_centralSize, set_offset. simpl.
  do 4 f_equal. lia.
Qed.

Lemma zip64EndOfCentralDirectory_spec (w : World) :
  zip64EndOfCentralDirectory w =
    Some (tt, {| this := set_offset
                           (offset (this w)
                            + byteLength (Layout.zip64EndRecord
                                            (entryCount w) (centralSize (this w))
                                            (centralOffset (this w)))
                            + byteLength (Layout.zip64Locator
                                            (centralOffset (this w) + centralSize (this w))))
                           (this w);
                 store := store w;
                 enqueued := enqueued w
                   ++ [Layout.zip64EndRecord
                         (entryCount w) (centralSize (this w)) (centralOffset (this w));
                       Layout.zip64Locator
                         (centralOffset (this w) + centralSize (this w))] |}).
Proof.
  unfold zip64EndOfCentralDirectory, methodReference. do 8 step.
  unfold put, set_offset. cbn [this store enqueued offset forceZip64 entry entries
    centralOffset centralSize].
  unfold BinaryStream.getByteArray, BinaryStream.writeBigInt64, BinaryStream.writeInt32,
    BinaryStream.writeInt16, BinaryStream.new, Layout.zip64EndRecord,
    Layout.zip64Locator, entryCount.
  rewrite !app_nil_l, <- !app_assoc. reflexivity.
Qed.

Lemma endOfCentralDirectory_spec (w : World) :
  endOfCentralDirectory w =
    Some (tt, {| this := set_offset
                           (offset (this w)
                            + byteLength (Layout.endRecord
                                            0xFFFF 0xFFFFFFFF 0xFFFFFFFF))
                           (this w);
                 store := store w;
                 enqueued := enqueued w
                   ++ [Layout.endRecord 0xFFFF 0xFFFFFFFF 0xFFFFFFFF] |}).
Proof.
  unfold endOfCentralDirectory, methodReference. do 5 step.
  unfold put. 
  unfold BinaryStream.getByteArray, BinaryStream.writeInt32,
    BinaryStream.writeInt16, BinaryStream.new, Layout.endRecord,
    ZIP64_MAGIC, ZIP64_MAGIC_SHORT.
  rewrite !app_nil_l, <- !app_assoc. reflexivity.
Qed.

(** [flush] returns on every well-formed world. *)
Lemma flush_spec (w : World) :
  wellFormed w ->
  exists st',
    flush w =
      Some (tt, {| this := {| forceZip64 := forceZip64 (this w);
                              entry := entry (this w);
                              entries := entries (this w);
                              offset := offset (this w)
                                        + totalBytes (directoryOf w ++ endRecordsOf w);
                              centralOffset := offset (this w);
                              centralSize := totalBytes (directoryOf w) |};
                   store := st';
                   enqueued := enqueued w ++ directoryOf w ++ endRecordsOf w |})
    /\ escalatedRecordOf <$> st' = escalatedRecordOf <$> store w.
Proof.
  intros Hwf. destruct (centralDirectory_spec w Hwf) as (st' & Hcd & Hst & _).
  exists st'. split; [|exact Hst].
  unfold flush.
  erewrite bind_eq by exact Hcd.
  erewrite bind_eq by apply zip64EndOfCentralDirectory_spec.
  rewrite endOfCentralDirectory_spec.
  unfold set_offset, endRecordsOf, entryCount.
  cbn [this store enqueued offset forceZip64 entry entries centralOffset centralSize].
  rewrite totalBytes_app. cbn [totalBytes fold_right].
  rewrite <- !app_assoc. simpl app.
  do 4 f_equal. lia.
Qed.

End Flush.

Section Archive.
Context `{Collaborators}.

Lemma exec_eq {A : Type} (m : M A) (w w' : World) (a : A) :
  m w = Some (a, w') -> exec m w = Some w'.
Proof. intros Hm. unfold exec. now rewrite Hm. Qed.

Lemma transformAll_spec (items : list (Date * Entry.t)) :
  forall w : World, transformAll items w = Some (tt, transformedAll items w).
Proof.
  induction items as [|[now item] items IH]; intros w; simpl.
  - reflexivity.
  - erewrite bind_eq by apply transform_spec. apply IH.
Qed.

Lemma transformedAll_snoc (items : list (Date * Entry.t)) (now : Date) (item : Entry.t)
    (w : World) :
  transformedAll (items ++ [(now, item)]) w = transformed now item (transformedAll items w).
Proof. unfold transformedAll. now rewrite fold_left_app. Qed.

Lemma putOwn_bound (o : JSObject ref) (k : string) (v n : nat) :
  Forall (fun kv => (snd kv < n)%nat) o -> (v < n)%nat ->
  Forall (fun kv => (snd kv < n)%nat) (putOwn o k v).
Proof.
  intros Ho Hv. induction o as [|[k' v'] o IH]; simpl.
  - repeat constructor. exact Hv.
  - inversion Ho; subst. destruct (k' =? k)%string; constructor; auto.
Qed.

Lemma wellFormed_new : wellFormed new.
Proof. constructor. Qed.

Lemma wellFormed_transformed (now : Date) (item : Entry.t) (w : World) :
  wellFormed w -> wellFormed (transformed now item w).
Proof.
  unfold wellFormed, transformed; simpl. intros Hwf.
  rewrite length_app; simpl. unfold assign.
  assert (Hw : Forall (fun kv => (snd kv < length (store w) + 1)%nat) (entries (this w))).
  { eapply Forall_impl; [exact Hwf|]. simpl. intros; lia. }
  destruct (_ =? "__proto__")%string; [exact Hw|].
  apply putOwn_bound; [exact Hw|lia].
Qed.

Lemma wellFormed_transformedAll (items : list (Date * Entry.t)) :
  forall w : World, wellFormed w -> wellFormed (transformedAll items w).
Proof.
  induction items as [|[now item] items IH]; intros w Hwf; simpl; [exact Hwf|].
  apply IH. now apply wellFormed_transformed.
Qed.

Lemma counted_transformed (now : Date) (item : Entry.t) (w : World) :
  counted w -> counted (transformed now item w).
Proof.
  unfold counted, transformed; cbn [this offset enqueued]. intros Hc.
  rewrite totalBytes_app. lia.
Qed.

Lemma counted_transformedAll (items : list (Date * Entry.t)) :
  forall w : World, counted w -> counted (transformedAll items w).
Proof.
  induction items as [|[now item] items IH]; intros w Hc; simpl; [exact Hc|].
  apply IH. now apply counted_transformed.
Qed.

Lemma store_transformedAll (items : list (Date * Entry.t)) :
  forall w : World,
    store (transformedAll items w) = store w ++ createdFrom (offset (this w)) items.
Proof.
  induction items as [|[now item] items IH]; intros w; simpl.
  - now rewrite app_nil_r.
  - rewrite IH. simpl. now rewrite <- app_assoc.
Qed.

(** A whole archive always completes: the chunks of the items in order,
    then the directory, then the end records. *)
Lemma archive_spec (items : list (Date * Entry.t)) :
  exists w',
    exec (archive items) new = Some w'
    /\ enqueued w'
       = enqueued (transformedAll items new)
         ++ directoryOf (transformedAll items new)
         ++ endRecordsOf (transformedAll items new).
Proof.
  assert (Hwf : wellFormed (transformedAll items new)).
  { apply wellFormed_transformedAll, wellFormed_new. }
  destruct (flush_spec _ Hwf) as (st' & Hflush & _).
  eexists. split.
  - eapply exec_eq. unfold archive.
    erewrite bind_eq by apply transformAll_spec. exact Hflush.
  - reflexivity.
Qed.

End Archive.

(** * The claims of the specification *)

Section PerEntry.
Context `{Collaborators}.

Lemma header_step (now : Date) (item : Entry.t) (w : World) :
  let nameBuffer := textEncoder_encode (trim (Entry.name item)) in
  let date := entryDate now item in
  bind (defineEntry (trim (Entry.name item)) nameBuffer date)
       (fun _ => localFileHeader nameBuffer date) w
  = Some (tt,
      {| this := set_offset
                   (offset (this w)
                    + byteLength (Layout.localFileHeaderRecord (getDateTimeDOS date) nameBuffer))
                   (set_entry (length (store w))
                      (set_entries
                         (assign (entries (this w)) (trim (Entry.name item))
                                 (length (store w)))
                         (this w)));
         store := store w ++ [{| IEntry.offset := offset (this w);
                                 IEntry.crc := Crc32_new;
                                 IEntry.compressedSize := 0;
                                 IEntry.size := 0;
                                 IEntry.nameBuffer := nameBuffer;
                                 IEntry.date := date;
                                 IEntry.extra := [] |}];
         enqueued := enqueued w
                     ++ [Layout.localFileHeaderRecord (getDateTimeDOS date) nameBuffer] |}).
Proof.
  intros nameBuffer date.
  erewrite bind_eq by apply defineEntry_spec.
  erewrite localFileHeader_spec; simpl; [reflexivity|reflexivity|apply lookup_snoc|reflexivity].
Qed.

(** C9.  Whatever the item and the world, the first chunk that [transform]
    enqueues is the local file header of section 6: signature, version
    0x002D, flags 0x0808, method 0, the DOS date and time, three zero 4-byte
    fields, the 2-byte name length, a zero extra length and the UTF-8 name,
    30 bytes and the name in all.  The entry object records the cursor as it
    was before the header, and the cursor moves by the length of the header. *)
Theorem local_file_header_layout (now : Date) (item : Entry.t) (w : World) :
  let nameBuffer := textEncoder_encode (trim (Entry.name item)) in
  let date := entryDate now item in
  let header :=
    le_bytes 4 SIG_LFH ++ le_bytes 2 0x002D ++ le_bytes 2 0x0808 ++ le_bytes 2 0
    ++ le_bytes 4 (getDateTimeDOS date)
    ++ le_bytes 4 0 ++ le_bytes 4 0 ++ le_bytes 4 0
    ++ le_bytes 2 (byteLength nameBuffer) ++ le_bytes 2 0
    ++ nameBuffer in
  exists w1 w2 e rest,
    exec (bind (defineEntry (trim (Entry.name item)) nameBuffer date)
               (fun _ => localFileHeader nameBuffer date)) w = Some w1
    /\ enqueued w1 = enqueued w ++ [header]
    /\ byteLength header = 30 + byteLength nameBuffer
    /\ offset (this w1) = offset (this w) + byteLength header
    /\ entry (this w1) = Some (length (store w))
    /\ store w1 !! length (store w) = Some e
    /\ IEntry.offset e = offset (this w)
    /\ exec (transform now item) w = Some w2
    /\ enqueued w2 = enqueued w ++ header :: rest.
Proof.
  intros nameBuffer date header.
  change header with (Layout.localFileHeaderRecord (getDateTimeDOS date) nameBuffer).
  eexists _, _, _, _. split.
  { eapply exec_eq. apply header_step. }
  cbn [this store enqueued offset entry set_offset set_entry].
  split; [reflexivity|]. split; [apply length_localFileHeader|].
  split; [reflexivity|]. split; [reflexivity|].
  split; [apply lookup_snoc|]. split; [reflexivity|].
  split; [eapply exec_eq; apply transform_spec|].
  unfold transformed, chunksOf, headerOf; cbn [enqueued]. cbn [app]. reflexivity.
Qed.

(** C6.  After the header, the read loop feeds every chunk of the content
    source to the checksum in arrival order, leaves both size counters at
    the total length of the content, and enqueues the chunks as they came;
    it touches nothing else.  Without a content source the step changes
    nothing and both counters stay zero. *)
Theorem content_relay (now : Date) (item : Entry.t) (w : World) :
  let nameBuffer := textEncoder_encode (trim (Entry.name item)) in
  let date := entryDate now item in
  exists w1 w2 e,
    exec (bind (defineEntry (trim (Entry.name item)) nameBuffer date)
               (fun _ => localFileHeader nameBuffer date)) w = Some w1
    /\ exec (fileData item) w1 = Some w2
    /\ this w2 = this w1
    /\ store w2 = store w ++ [e]
    /\ entry (this w2) = Some (length (store w))
    /\ IEntry.offset e = offset (this w)
    /\ IEntry.nameBuffer e = nameBuffer
    /\ IEntry.date e = date
    /\ IEntry.extra e = []
    /\ match Entry.stream item with
       | Some chunks =>
           IEntry.crc e = fold_left Crc32_append chunks Crc32_new
           /\ IEntry.compressedSize e = totalBytes chunks
           /\ IEntry.size e = totalBytes chunks
           /\ enqueued w2 = enqueued w1 ++ chunks
       | None =>
           w2 = w1
           /\ IEntry.crc e = Crc32_new
           /\ IEntry.compressedSize e = 0
           /\ IEntry.size e = 0
       end.
Proof.
  intros nameBuffer date.
  eexists _, _, (entryOf (offset (this w)) now item). split.
  { eapply exec_eq. apply header_step. }
  split.
  { eapply exec_eq. eapply fileData_spec; cbn [this store entry set_offset set_entry].
    - reflexivity.
    - apply lookup_snoc. }
  cbn [this store enqueued entry set_offset set_entry].
  rewrite insert_snoc, relayed_fresh.
  repeat (split; [reflexivity|]).
  unfold entryOf, contentOf. cbn [IEntry.crc IEntry.compressedSize IEntry.size].
  destruct (Entry.stream item) as [chunks|]; [repeat split|].
  split; [|repeat split].
  rewrite app_nil_r. reflexivity.
Qed.

End PerEntry.

Section WholeArchive.
Context `{Collaborators}.

(** C10.  After any sequence of items, after one more [transform] and
    after [flush], the cursor equals the number of bytes enqueued so far,
    and neither step moves it backwards.  One [transform] moves it by the
    header, by the size of the entry, which is the length of the relayed
    content, and by the descriptor. *)
Theorem cursor_counts_enqueued_bytes
    (items : list (Date * Entry.t)) (now : Date) (item : Entry.t) :
  exists w w1 w2 e header descriptor,
    exec (transformAll items) new = Some w
    /\ offset (this w) = totalBytes (enqueued w)
    /\ exec (transform now item) w = Some w1
    /\ offset (this w1) = totalBytes (enqueued w1)
    /\ offset (this w) <= offset (this w1)
    /\ store w1 = store w ++ [e]
    /\ IEntry.size e = totalBytes (contentOf item)
    /\ enqueued w1 = enqueued w ++ [header] ++ contentOf item ++ [descriptor]
    /\ offset (this w1)
       = offset (this w) + byteLength header + (IEntry.size e + byteLength descriptor)
    /\ exec flush w = Some w2
    /\ offset (this w2) = totalBytes (enqueued w2)
    /\ offset (this w) <= offset (this w2).
Proof.
  set (w := transformedAll items new).
  assert (Hc : counted w).
  { apply counted_transformedAll. reflexivity. }
  assert (Hwf : wellFormed w).
  { apply wellFormed_transformedAll, wellFormed_new. }
  destruct (flush_spec w Hwf) as (st' & Hflush & _).
  eexists w, (transformed now item w), _,
    (entryOf (offset (this w)) now item), _, _.
  split; [eapply exec_eq; apply transformAll_spec|].
  split; [exact Hc|].
  split; [eapply exec_eq; apply transform_spec|].
  split; [now apply counted_transformed|].
  split.
  { unfold transformed; cbn [this offset].
    pose proof (totalBytes_nonneg (chunksOf (offset (this w)) now item)). lia. }
  split; [reflexivity|]. split; [reflexivity|]. split; [reflexivity|].
  split.
  { unfold transformed; cbn [this offset]. rewrite totalBytes_chunksOf.
    cbn [IEntry.size entryOf]. lia. }
  split; [eapply exec_eq; exact Hflush|].
  cbn [this offset enqueued]. unfold counted in Hc. split.
  - rewrite !totalBytes_app. rewrite totalBytes_app in *. lia.
  - pose proof (totalBytes_nonneg (directoryOf w ++ endRecordsOf w)). lia.
Qed.

(** C7.  For every archive, [flush] records as the offset of the central
    directory the cursor at which it starts, that is the number of bytes
    enqueued up to the last data descriptor, and as its size the total
    length of the records that the directory loop enqueues, which is the
    cursor after the loop minus that offset. *)
Theorem central_directory_extent (items : list (Date * Entry.t)) :
  exists w w1 w2 records,
    exec (transformAll items) new = Some w
    /\ offset (this w) = totalBytes (enqueued w)
    /\ exec centralDirectory w = Some w1
    /\ enqueued w1 = enqueued w ++ records
    /\ length records = length (Object_keys (entries (this w)))
    /\ centralOffset (this w1) = offset (this w)
    /\ centralSize (this w1) = totalBytes records
    /\ centralSize (this w1) = offset (this w1) - centralOffset (this w1)
    /\ exec flush w = Some w2
    /\ centralOffset (this w2) = offset (this w)
    /\ centralSize (this w2) = totalBytes records.
Proof.
  set (w := transformedAll items new).
  assert (Hc : counted w).
  { apply counted_transformedAll. reflexivity. }
  assert (Hwf : wellFormed w).
  { apply wellFormed_transformedAll, wellFormed_new. }
  destruct (centralDirectory_spec w Hwf) as (st1 & Hdir & _ & Hlen).
  destruct (flush_spec w Hwf) as (st2 & Hflush & _).
  eexists w, _, _, (directoryOf w).
  split; [eapply exec_eq; apply transformAll_spec|].
  split; [exact Hc|].
  split; [eapply exec_eq; exact Hdir|].
  cbn [this enqueued offset centralOffset centralSize].
  split; [reflexivity|]. split; [exact Hlen|].
  split; [reflexivity|]. split; [reflexivity|]. split; [lia|].
  split; [eapply exec_eq; exact Hflush|].
  cbn [this centralOffset centralSize]. split; reflexivity.
Qed.

End WholeArchive.

Section DirectoryRecord.
Context `{Collaborators}.

Lemma recordsNamed_elem (o : JSObject ref) (st : list IEntry.t)
    (names : list string) (name : string) (record : Uint8Array) :
  name ∈ names ->
  recordNamed o st name = Some record ->
  record ∈ recordsNamed o st names.
Proof.
  intros Hin Hrec. induction names as [|name' names IH]; [inversion Hin|].
  simpl. apply elem_of_cons in Hin. destruct Hin as [<-|Hin].
  - rewrite Hrec. left.
  - destruct (recordNamed o st name'); [right|]; now apply IH.
Qed.

(** C8.  When an entry object is beyond the 32-bit limit in a size or in
    its offset, the turn of the directory loop for its name enqueues a
    record whose compressed-size, size and offset fields all hold
    0xFFFFFFFF and whose extra field is the Zip64 one: the tag, the length
    24, then the 8-byte size, compressed size and offset, in that order;
    the extra length field of the record is 28.  That record is part of
    what [flush] enqueues when the name is one of those listed. *)
Theorem escalated_directory_record (name : string) (w : World) (r : ref) (e : IEntry.t) :
  wellFormed w ->
  name ∈ Object_keys (entries (this w)) ->
  getOwn (entries (this w)) name = Some r ->
  store w !! r = Some e ->
  IEntry.isZip64 e = true \/ IEntry.offset e > ZIP64_MAGIC ->
  exists w1 w2 extra record before after,
    extra = le_bytes 2 ZIP64_EXTRA_ID ++ le_bytes 2 24
            ++ le_bytes 8 (IEntry.size e)
            ++ le_bytes 8 (IEntry.compressedSize e)
            ++ le_bytes 8 (IEntry.offset e)
    /\ byteLength extra = 28
    /\ record = Layout.centralDirectoryRecord
                  (getDateTimeDOS (IEntry.date e)) (Crc32_get (IEntry.crc e))
                  0xFFFFFFFF 0xFFFFFFFF 0xFFFFFFFF
                  (IEntry.nameBuffer e) extra
    /\ exec (centralDirectoryFileHeader name) w = Some w1
    /\ enqueued w1 = enqueued w ++ [record]
    /\ exec flush w = Some w2
    /\ enqueued w2 = enqueued w ++ before ++ record :: after.
Proof.
  intros Hwf Hname Hr He _.
  destruct (flush_spec w Hwf) as (st2 & Hflush & _).
  assert (Hin : escalatedRecordOf e ∈ directoryOf w).
  { apply (recordsNamed_elem _ _ _ name); [exact Hname|].
    unfold recordNamed. now rewrite Hr, He. }
  apply list_elem_of_split in Hin. destruct Hin as (l1 & l2 & Hsplit).
  eexists _, _, _, (escalatedRecordOf e), l1, (l2 ++ endRecordsOf w).
  split; [reflexivity|]. split.
  { unfold byteLength. rewrite !length_app, !length_le_bytes. reflexivity. }
  split; [reflexivity|]. split.
  { eapply exec_eq. eapply centralDirectoryFileHeader_spec; eassumption. }
  split; [reflexivity|]. split.
  { eapply exec_eq. exact Hflush. }
  cbn [enqueued]. rewrite Hsplit, <- !app_assoc. reflexivity.
Qed.

End DirectoryRecord.

Section Names.
Context `{Collaborators}.

Lemma namesOf_snoc (items : list (Date * Entry.t)) (now : Date) (item : Entry.t) :
  namesOf (items ++ [(now, item)]) = namesOf items ++ [trim (Entry.name item)].
Proof. unfold namesOf. now rewrite map_app. Qed.

(** Distinct names, none of them "__proto__": the name map lists the names
    in the order of the items, the i-th leading to the i-th object. *)
Lemma entries_of_distinct_names (items : list (Date * Entry.t)) :
  NoDup (namesOf items) ->
  Forall (fun name => name <> "__proto__") (namesOf items) ->
  map fst (entries (this (transformedAll items new))) = namesOf items
  /\ map snd (entries (this (transformedAll items new))) = seq 0 (length items)
  /\ length (store (transformedAll items new)) = length items.
Proof.
  induction items as [|[now item] items IH] using rev_ind; intros Hnd Hnp.
  - repeat split.
  - rewrite namesOf_snoc in Hnd, Hnp.
    apply NoDup_app in Hnd. destruct Hnd as (Hnd & Hfresh & _).
    apply Forall_app in Hnp. destruct Hnp as [Hnp Hname].
    apply (proj1 (Forall_singleton _ _)) in Hname.
    destruct (IH Hnd Hnp) as (Hfst & Hsnd & Hlen).
    rewrite transformedAll_snoc, namesOf_snoc.
    unfold transformed; cbn [this entries store].
    unfold assign. destruct (String.eqb_spec (trim (Entry.name item)) "__proto__");
      [now apply Hname in e|].
    rewrite putOwn_fresh.
    2:{ rewrite Hfst. intros Hin. apply (Hfresh _ Hin). left. }
    rewrite !map_app, Hfst, Hsnd, Hlen, !length_app. simpl.
    rewrite Nat.add_1_r, seq_S. repeat split. lia.
Qed.

(** The records of names that lead, one after the other, to the objects of
    a segment of the store. *)
Lemma recordsNamed_segment (o : JSObject ref) :
  NoDup (map fst o) ->
  forall (l : list (string * nat)) (pre st : list IEntry.t),
    (forall kv, kv ∈ l -> kv ∈ o) ->
    map snd l = seq (length pre) (length st) ->
    recordsNamed o (pre ++ st) (map fst l) = map escalatedRecordOf st.
Proof.
  intros Hnd. induction l as [|[k r] l IH]; intros pre st Hsub Hseq.
  - destruct st; [reflexivity|discriminate].
  - destruct st as [|e st]; [discriminate|].
    simpl in Hseq. injection Hseq as -> Hseq.
    simpl. unfold recordNamed.
    rewrite (getOwn_NoDup o k (length pre) Hnd) by (apply Hsub; left).
    rewrite list_lookup_middle by reflexivity.
    f_equal. rewrite (cons_middle e pre st), app_assoc. apply IH.
    + intros kv Hkv. apply Hsub. now right.
    + rewrite length_app. simpl. now rewrite Nat.add_1_r.
Qed.

(** C4, as amended.  When the trimmed names of the items are pairwise
    distinct and none of them is an array index or "__proto__", the
    directory loop enqueues one record for each entry created, the i-th
    record describing the i-th entry. *)
Theorem directory_follows_creation_order (items : list (Date * Entry.t)) :
  NoDup (namesOf items) ->
  Forall (fun name => isArrayIndex name = false /\ name <> "__proto__") (namesOf items) ->
  directoryInCreationOrder items.
Proof.
  intros Hnd Hnames.
  assert (Hnp : Forall (fun name => name <> "__proto__") (namesOf items)).
  { eapply Forall_impl; [exact Hnames|]. now intros name [_ ?]. }
  assert (Hni : Forall (fun name => isArrayIndex name = false) (namesOf items)).
  { eapply Forall_impl; [exact Hnames|]. now intros name [? _]. }
  destruct (entries_of_distinct_names items Hnd Hnp) as (Hfst & Hsnd & Hlen).
  set (w := transformedAll items new) in *.
  assert (Hwf : wellFormed w).
  { apply wellFormed_transformedAll, wellFormed_new. }
  destruct (centralDirectory_spec w Hwf) as (st1 & Hdir & _ & _).
  assert (Hst : store w = createdFrom 0 items).
  { unfold w. now rewrite store_transformedAll. }
  eexists w, _, (directoryOf w).
  split; [eapply exec_eq; apply transformAll_spec|].
  split; [eapply exec_eq; exact Hdir|].
  split; [reflexivity|].
  unfold directoryOf. rewrite Object_keys_creation by (rewrite Hfst; exact Hni).
  rewrite <- (app_nil_l (store w)).
  rewrite (recordsNamed_segment (entries (this w))).
  - rewrite <- Hst. apply Forall2_fmap_l, Forall_Forall2_diag, Forall_true.
    intros e. now left.
  - now rewrite Hfst.
  - auto.
  - rewrite Hsnd. simpl. now rewrite Hlen.
Qed.

Lemma keysDistinct_transformedAll (items : list (Date * Entry.t)) :
  forall w : World,
    NoDup (map fst (entries (this w))) ->
    NoDup (map fst (entries (this (transformedAll items w)))).
Proof.
  induction items as [|[now item] items IH]; intros w Hnd; simpl; [exact Hnd|].
  apply IH. unfold transformed; cbn [this entries]. unfold assign.
  destruct (_ =? "__proto__")%string; [exact Hnd|].
  now apply NoDup_keys_putOwn.
Qed.

(** The directory holds one record for each listed name, in order. *)
Lemma recordsNamed_Forall2 (o : JSObject ref) (st : list IEntry.t) (names : list string) :
  (forall name, name ∈ names -> exists r e, getOwn o name = Some r /\ st !! r = Some e) ->
  Forall2 (fun key record =>
             exists r e, getOwn o key = Some r /\ st !! r = Some e /\ describes record e)
          names (recordsNamed o st names).
Proof.
  induction names as [|name names IH]; intros Hown; simpl; [constructor|].
  destruct (Hown name) as (r & e & Hr & He); [left|].
  unfold recordNamed at 1. rewrite Hr, He. constructor.
  - exists r, e. repeat split; [assumption..|now left].
  - apply IH. intros name' Hn. apply Hown. now right.
Qed.

Lemma directory_Forall2 (w : World) :
  wellFormed w ->
  Forall2 (fun key record =>
             exists r e, getOwn (entries (this w)) key = Some r
                         /\ store w !! r = Some e /\ describes record e)
          (Object_keys (entries (this w))) (directoryOf w).
Proof.
  intros Hwf. apply recordsNamed_Forall2. intros name Hn.
  destruct (Object_keys_own _ _ Hn) as (r & Hr & Hel).
  assert (Hlt : (r < length (store w))%nat).
  { unfold wellFormed in Hwf. rewrite Forall_forall in Hwf. apply (Hwf (name, r) Hel). }
  destruct (lookup_lt_is_Some_2 _ _ Hlt) as [e He]. eauto.
Qed.

Lemma Object_keys_putOwn_old (o : JSObject ref) (k : string) (v : nat) :
  k ∈ map fst o -> Object_keys (putOwn o k v) = Object_keys o.
Proof. intros Hk. unfold Object_keys. now rewrite keys_putOwn_old. Qed.

End Names.

Section SmallArchive.
Context `{Collaborators}.
Import Samples.

Lemma length_centralDirectoryRecord (d c cs s o : Z) (name extra : Uint8Array) :
  byteLength (Layout.centralDirectoryRecord d c cs s o name extra)
  = 46 + byteLength name + byteLength extra.
Proof.
  unfold Layout.centralDirectoryRecord, byteLength.
  rewrite !length_app, !length_le_bytes. lia.
Qed.

(** C1.  The item "x.txt" holding "AB", whatever the collaborators: both
    counters end at 2 and the predicate [isZip64] of the entry is false, yet
    the descriptor that [transform] enqueues carries two 8-byte size fields
    and is 24 bytes long; it is not the 16-byte descriptor with two 4-byte
    size fields. *)
Theorem descriptor_of_small_entry :
  exists w e header descriptor,
    exec (transform 0 xtxt) new = Some w
    /\ store w = [e]
    /\ IEntry.compressedSize e = 2 /\ IEntry.size e = 2
    /\ IEntry.isZip64 e = false
    /\ enqueued w = [header; ascii_AB; descriptor]
    /\ descriptor = Layout.dataDescriptorRecord true (Crc32_get (IEntry.crc e)) 2 2
    /\ byteLength descriptor = 24
    /\ descriptor <> Layout.dataDescriptorRecord false (Crc32_get (IEntry.crc e)) 2 2.
Proof.
  exists (transformed 0 xtxt new), (entryOf 0 0 xtxt),
    (headerOf (entryOf 0 0 xtxt)), (wideDescriptorOf (entryOf 0 0 xtxt)).
  split; [eapply exec_eq; apply transform_spec|].
  do 7 (split; [reflexivity|]).
  intros Heq. apply (f_equal byteLength) in Heq.
  unfold wideDescriptorOf in Heq. rewrite !length_dataDescriptor in Heq. discriminate.
Qed.

(** C2.  The same item, then [flush]: sizes 2 and offset 0 are far below
    0xFFFFFFFF, yet the record that the directory loop enqueues holds
    0xFFFFFFFF in the compressed-size, size and offset fields and carries
    the 28 bytes of a Zip64 extra field; it is not the record with the
    literal values and no extra field. *)
Theorem directory_record_of_small_entry :
  exists w w1 e record,
    exec (transformAll [(0, xtxt)]) new = Some w
    /\ store w = [e]
    /\ IEntry.compressedSize e = 2 /\ IEntry.size e = 2 /\ IEntry.offset e = 0
    /\ exec centralDirectory w = Some w1
    /\ enqueued w1 = enqueued w ++ [record]
    /\ record = Layout.centralDirectoryRecord
                  (getDateTimeDOS 1) (Crc32_get (IEntry.crc e))
                  0xFFFFFFFF 0xFFFFFFFF 0xFFFFFFFF
                  (textEncoder_encode "x.txt") (Layout.zip64ExtraField 2 2 0)
    /\ byteLength (Layout.zip64ExtraField 2 2 0) = 28
    /\ record <> Layout.centralDirectoryRecord
                   (getDateTimeDOS 1) (Crc32_get (IEntry.crc e)) 2 2 0
                   (textEncoder_encode "x.txt") [].
Proof.
  assert (Hwf : wellFormed (transformedAll [(0, xtxt)] new)).
  { apply wellFormed_transformedAll, wellFormed_new. }
  destruct (centralDirectory_spec _ Hwf) as (st1 & Hdir & _ & _).
  eexists (transformedAll [(0, xtxt)] new), _, (entryOf 0 0 xtxt),
    (escalatedRecordOf (entryOf 0 0 xtxt)).
  split; [eapply exec_eq; apply transformAll_spec|].
  do 4 (split; [reflexivity|]).
  split; [eapply exec_eq; exact Hdir|].
  do 3 (split; [reflexivity|]).
  intros Heq. apply (f_equal byteLength) in Heq.
  unfold escalatedRecordOf in Heq. rewrite !length_centralDirectoryRecord in Heq.
  vm_compute in Heq. discriminate.
Qed.

(** C3.  The same one-entry archive: after the directory the escalation
    predicate [isZip64] of the class is false (one name, a directory of 79
    bytes at offset 61), yet [flush] enqueues a Zip64 end record and a
    locator, and the classic end record holds 0xFFFF in both count fields
    and 0xFFFFFFFF as directory size and offset; it is not the end record
    with the literal 1, 79 and 61. *)
Theorem end_records_of_small_archive :
  exists w w2 record,
    exec (transformAll [(0, xtxt)]) new = Some w
    /\ exec flush w = Some w2
    /\ entryCount w2 = 1
    /\ centralSize (this w2) = 79 /\ centralOffset (this w2) = 61
    /\ isZip64 (this w2) = false
    /\ enqueued w2 =
         enqueued w
         ++ [record;
             Layout.zip64EndRecord 1 79 61;
             Layout.zip64Locator 140;
             Layout.endRecord 0xFFFF 0xFFFFFFFF 0xFFFFFFFF]
    /\ Layout.endRecord 0xFFFF 0xFFFFFFFF 0xFFFFFFFF <> Layout.endRecord 1 79 61.
Proof.
  assert (Hwf : wellFormed (transformedAll [(0, xtxt)] new)).
  { apply wellFormed_transformedAll, wellFormed_new. }
  destruct (flush_spec _ Hwf) as (st2 & Hflush & _).
  eexists (transformedAll [(0, xtxt)] new), _, (escalatedRecordOf (entryOf 0 0 xtxt)).
  split; [eapply exec_eq; apply transformAll_spec|].
  split; [eapply exec_eq; exact Hflush|].
  cbn [this enqueued centralSize centralOffset].
  do 5 (split; [reflexivity|]).
  intros Heq. unfold Layout.endRecord in Heq.
  do 3 apply app_inv_head in Heq. discriminate.
Qed.

End SmallArchive.

Section Evaluations.
#[local] Existing Instance Reference.collaborators.
Import Samples.

(** The reference checksum is the CRC-32 of the usual tools. *)
Example crc32_of_AB : Crc32_get (Crc32_append Crc32_new ascii_AB) = 0x30694c07.
Proof. reflexivity. Qed.

Lemma escalated_directory_record_witness :
  wellFormed bigWorld
  /\ "big.bin" ∈ Object_keys (entries (this bigWorld))
  /\ getOwn (entries (this bigWorld)) "big.bin" = Some 0%nat
  /\ store bigWorld !! 0%nat = Some bigEntry
  /\ (IEntry.isZip64 bigEntry = true \/ IEntry.offset bigEntry > ZIP64_MAGIC)
  /\ exists w1 w2 extra record before after,
       extra = le_bytes 2 ZIP64_EXTRA_ID ++ le_bytes 2 24
               ++ le_bytes 8 (IEntry.size bigEntry)
               ++ le_bytes 8 (IEntry.compressedSize bigEntry)
               ++ le_bytes 8 (IEntry.offset bigEntry)
       /\ byteLength extra = 28
       /\ record = Layout.centralDirectoryRecord
                     (getDateTimeDOS (IEntry.date bigEntry))
                     (Crc32_get (IEntry.crc bigEntry))
                     0xFFFFFFFF 0xFFFFFFFF 0xFFFFFFFF
                     (IEntry.nameBuffer bigEntry) extra
       /\ exec (centralDirectoryFileHeader "big.bin") bigWorld = Some w1
       /\ enqueued w1 = enqueued bigWorld ++ [record]
       /\ exec flush bigWorld = Some w2
       /\ enqueued w2 = enqueued bigWorld ++ before ++ record :: after.
Proof.
  assert (Hwf : wellFormed bigWorld).
  { unfold wellFormed. simpl. repeat constructor. }
  assert (Hname : "big.bin" ∈ Object_keys (entries (this bigWorld))).
  { vm_compute. left. }
  split; [exact Hwf|]. split; [exact Hname|].
  split; [reflexivity|]. split; [reflexivity|]. split; [left; reflexivity|].
  apply (escalated_directory_record "big.bin" bigWorld 0%nat bigEntry Hwf Hname);
    [reflexivity|reflexivity|left; reflexivity].
Defined.

(** The items "b" and then "1": [Object.keys] lists the array index "1"
    first, so the directory starts with the record of the second entry. *)
Example keys_of_b_then_1 :
  exists w,
    exec (transformAll [(0, empty "b"); (0, empty "1")]) new = Some w
    /\ entries (this w) = [("b", 0%nat); ("1", 1%nat)]
    /\ Object_keys (entries (this w)) = ["1"; "b"]
    /\ directoryOf w = [escalatedRecordOf (entryOf 55 0 (empty "1"));
                        escalatedRecordOf (entryOf 0 0 (empty "b"))].
Proof.
  exists (transformedAll [(0, empty "b"); (0, empty "1")] new).
  split; [eapply exec_eq; apply transformAll_spec|].
  repeat (split; [vm_compute; reflexivity|]). vm_compute. reflexivity.
Qed.

(** C4 fails for the items "b" and then "1": the first record of the
    directory does not describe the first entry created. *)
Lemma creation_order_counterexample :
  ~ directoryInCreationOrder [(0, empty "b"); (0, empty "1")].
Proof.
  intros (w & w1 & records & Hw & Hw1 & Henq & Hall).
  erewrite exec_eq in Hw by apply transformAll_spec.
  assert (Hwf : wellFormed (transformedAll [(0, empty "b"); (0, empty "1")] new)).
  { apply wellFormed_transformedAll, wellFormed_new. }
  assert (Hrecords :
    directoryOf (transformedAll [(0, empty "b"); (0, empty "1")] new)
    = [escalatedRecordOf (entryOf 55 0 (empty "1"));
       escalatedRecordOf (entryOf 0 0 (empty "b"))])
    by (vm_compute; reflexivity).
  remember (transformedAll [(0, empty "b"); (0, empty "1")] new) as W eqn:HW.
  assert (Hw' : W = w) by congruence. subst w. clear Hw.
  destruct (centralDirectory_spec W Hwf) as (st1 & Hdir & _ & _).
  erewrite exec_eq in Hw1 by exact Hdir.
  assert (Hw1' : enqueued w1 = enqueued W ++ directoryOf W)
    by (injection Hw1 as <-; reflexivity).
  rewrite Hw1' in Henq. apply app_inv_head in Henq. subst records.
  rewrite Hrecords in Hall. cbn [createdFrom] in Hall.
  inversion Hall as [|record e records' created Hd _]; subst.
  destruct Hd as [Hd|Hd]; vm_compute in Hd; discriminate.
Qed.

Lemma directory_follows_creation_order_witness :
  NoDup (namesOf [(0, empty "a.txt"); (0, xtxt)])
  /\ Forall (fun name => isArrayIndex name = false /\ name <> "__proto__")
            (namesOf [(0, empty "a.txt"); (0, xtxt)])
  /\ directoryInCreationOrder [(0, empty "a.txt"); (0, xtxt)].
Proof.
  assert (Hnd : NoDup (namesOf [(0, empty "a.txt"); (0, xtxt)])).
  { apply (bool_decide_unpack _). vm_compute. exact I. }
  assert (Hnames : Forall (fun name => isArrayIndex name = false /\ name <> "__proto__")
                          (namesOf [(0, empty "a.txt"); (0, xtxt)])).
  { repeat constructor; discriminate. }
  split; [exact Hnd|]. split; [exact Hnames|].
  exact (directory_follows_creation_order [(0, empty "a.txt"); (0, xtxt)] Hnd Hnames).
Defined.

(** Two items named "__proto__": each assignment replaces the prototype of
    the name map, which keeps no own property, so [flush] finds no name and
    the directory is empty. *)
Example directory_of_proto_archive :
  exists w,
    exec (transformAll [(0, empty "__proto__"); (0, empty "__proto__")]) new = Some w
    /\ length (store w) = 2%nat
    /\ entries (this w) = []
    /\ directoryOf w = []
    /\ entryCount w = 0.
Proof.
  exists (transformedAll [(0, empty "__proto__"); (0, empty "__proto__")] new).
  split; [eapply exec_eq; apply transformAll_spec|].
  repeat (split; [vm_compute; reflexivity|]). vm_compute. reflexivity.
Qed.

End Evaluations.

(** * More of the class *)

Section OneTransform.
Context `{Collaborators}.

Lemma getOwn_assign_ne {V : Type} (o : JSObject V) (k k' : string) (v : V) :
  k' <> k -> getOwn (assign o k v) k' = getOwn o k'.
Proof.
  intros Hne. unfold assign. destruct (k =? "__proto__")%string; [reflexivity|].
  now apply getOwn_putOwn_ne.
Qed.

(** X1.  [transform] only appends.  Whenever it returns, on any world,
    the store has grown by the one new entry object, the chunks enqueued
    before are in front of the new ones, every other name of the name map
    leads where it led, and [forceZip64], [centralOffset] and [centralSize]
    have kept their values. *)
Theorem transform_appends_only (now : Date) (item : Entry.t) (w w1 : World)
    (other : string) :
  exec (transform now item) w = Some w1 ->
  exists e chunks,
    store w1 = store w ++ [e]
    /\ enqueued w1 = enqueued w ++ chunks
    /\ forceZip64 (this w1) = forceZip64 (this w)
    /\ centralOffset (this w1) = centralOffset (this w)
    /\ centralSize (this w1) = centralSize (this w)
    /\ (if (other =? trim (Entry.name item))%string
        then True
        else getOwn (entries (this w1)) other = getOwn (entries (this w)) other).
Proof.
  intros Hrun.
  rewrite (exec_eq _ _ _ _ (transform_spec now item w)) in Hrun.
  injection Hrun as <-.
  exists (entryOf (offset (this w)) now item), (chunksOf (offset (this w)) now item).
  do 5 (split; [reflexivity|]).
  destruct (String.eqb_spec other (trim (Entry.name item))) as [_|Hne]; [exact I|].
  unfold transformed; cbn [this entries]. now apply getOwn_assign_ne.
Qed.

(** X2.  One [transform] enqueues the header, the content chunks and the
    descriptor, two chunks more than the content has, and moves the cursor
    by 54 bytes, the length of the encoded name and the length of the
    content. *)
Theorem transform_overhead (now : Date) (item : Entry.t) (w : World) :
  exists w1,
    exec (transform now item) w = Some w1
    /\ length (enqueued w1) = (length (enqueued w) + 2 + length (contentOf item))%nat
    /\ offset (this w1)
       = offset (this w) + 54
         + byteLength (textEncoder_encode (trim (Entry.name item)))
         + totalBytes (contentOf item).
Proof.
  exists (transformed now item w).
  split; [eapply exec_eq; apply transform_spec|].
  unfold transformed; cbn [this enqueued offset]. split.
  - unfold chunksOf. rewrite !length_app. simpl. lia.
  - rewrite totalBytes_chunksOf. unfold headerOf, wideDescriptorOf.
    rewrite length_localFileHeader, length_dataDescriptor.
    cbn [IEntry.nameBuffer entryOf]. lia.
Qed.

(** X3.  After [transform], [this.entry] is the object just created, and
    the name map leads to the same object under the trimmed name; only for
    the name "__proto__" the name map is left as it was. *)
Theorem current_entry_is_named_entry (now : Date) (item : Entry.t) (w : World) :
  exists w1 e,
    exec (transform now item) w = Some w1
    /\ entry (this w1) = Some (length (store w))
    /\ store w1 !! length (store w) = Some e
    /\ IEntry.nameBuffer e = textEncoder_encode (trim (Entry.name item))
    /\ (if (trim (Entry.name item) =? "__proto__")%string
        then entries (this w1) = entries (this w)
        else getOwn (entries (this w1)) (trim (Entry.name item)) = entry (this w1)).
Proof.
  exists (transformed now item w), (entryOf (offset (this w)) now item).
  split; [eapply exec_eq; apply transform_spec|].
  split; [reflexivity|]. split; [apply lookup_snoc|]. split; [reflexivity|].
  unfold transformed; cbn [this entries entry]. unfold assign.
  destruct (_ =? "__proto__")%string; [reflexivity|]. apply getOwn_putOwn_eq.
Qed.

(** X13.  A time stamp of zero is falsy: an item stamped 0 is handled
    like the same item without a time stamp, with the current time. *)
Theorem zero_time_stamp_is_absent (now : Date) (name : string)
    (content : option (list Uint8Array)) (w : World) :
  transform now {| Entry.name := name; Entry.lastModified := Some 0;
                   Entry.stream := content |} w
  = transform now {| Entry.name := name; Entry.lastModified := None;
                     Entry.stream := content |} w
  /\ exists w1 e,
       exec (transform now {| Entry.name := name; Entry.lastModified := Some 0;
                              Entry.stream := content |}) w = Some w1
       /\ store w1 !! length (store w) = Some e
       /\ IEntry.date e = now.
Proof.
  split.
  - rewrite !transform_spec. reflexivity.
  - eexists _, _. split; [eapply exec_eq; apply transform_spec|].
    split; [apply lookup_snoc|]. reflexivity.
Qed.

End OneTransform.

Section Streams.
Context `{Collaborators}.

Lemma enqueued_transformedAll (items : list (Date * Entry.t)) :
  forall w : World,
    enqueued (transformedAll items w)
    = enqueued w ++ streamFrom (offset (this w)) items.
Proof.
  induction items as [|[now item] items IH]; intros w; simpl.
  - now rewrite app_nil_r.
  - rewrite IH. unfold transformed; cbn [this offset enqueued].
    now rewrite <- app_assoc.
Qed.

Lemma streamFrom_app (a b : list (Date * Entry.t)) :
  forall cursor : Z,
    streamFrom cursor (a ++ b)
    = streamFrom cursor a ++ streamFrom (cursor + totalBytes (streamFrom cursor a)) b.
Proof.
  induction a as [|[now item] a IH]; intros cursor; cbn [streamFrom app].
  - cbn [totalBytes fold_right]. now rewrite Z.add_0_r.
  - rewrite IH, totalBytes_app, <- app_assoc, Z.add_assoc. reflexivity.
Qed.

Lemma createdFrom_app (a b : list (Date * Entry.t)) :
  forall cursor : Z,
    createdFrom cursor (a ++ b)
    = createdFrom cursor a ++ createdFrom (cursor + totalBytes (streamFrom cursor a)) b.
Proof.
  induction a as [|[now item] a IH]; intros cursor; cbn [createdFrom streamFrom app].
  - cbn [totalBytes fold_right]. now rewrite Z.add_0_r.
  - rewrite IH, totalBytes_app, Z.add_assoc. reflexivity.
Qed.

Lemma length_createdFrom (items : list (Date * Entry.t)) :
  forall cursor : Z, length (createdFrom cursor items) = length items.
Proof.
  induction items as [|[now item] items IH]; intros cursor; simpl; [reflexivity|].
  now rewrite IH.
Qed.

(** The entry object at a position of the store is the one of the item at
    that position, created at the cursor that the items before it left. *)
Lemma createdFrom_lookup (items : list (Date * Entry.t)) (cursor : Z) (i : nat) (e : IEntry.t) :
  createdFrom cursor items !! i = Some e ->
  exists before now item after,
    items = before ++ (now, item) :: after
    /\ length before = i
    /\ e = entryOf (cursor + totalBytes (streamFrom cursor before)) now item.
Proof.
  intros He.
  assert (Hlt : (i < length items)%nat).
  { rewrite <- (length_createdFrom items cursor). eapply lookup_lt_Some; eauto. }
  destruct (lookup_lt_is_Some_2 _ _ Hlt) as [[now item] Hi].
  exists (take i items), now, item, (drop (S i) items).
  assert (Hsplit : items = take i items ++ (now, item) :: drop (S i) items)
    by (symmetry; now apply take_drop_middle).
  assert (Hlen : length (take i items) = i) by (rewrite length_take; lia).
  split; [exact Hsplit|]. split; [exact Hlen|].
  rewrite Hsplit, createdFrom_app in He. simpl in He.
  rewrite list_lookup_middle in He by (rewrite length_createdFrom; lia).
  congruence.
Qed.

(** X4.  The offset that an entry object records is the position of its
    local file header in the output: whatever the names, the output of the
    items is the blocks of the items before, then the header, the content
    and the descriptor of this item, then the blocks of the items after, and
    the recorded offset is the number of bytes in front of the header. *)
Theorem entry_offset_is_header_position
    (before : list (Date * Entry.t)) (now : Date) (item : Entry.t)
    (after : list (Date * Entry.t)) :
  exists w e pre post,
    exec (transformAll (before ++ (now, item) :: after)) new = Some w
    /\ store w !! length before = Some e
    /\ e = entryOf (IEntry.offset e) now item
    /\ enqueued w
       = pre ++ [headerOf e] ++ contentOf item ++ [wideDescriptorOf e] ++ post
    /\ pre = streamFrom 0 before
    /\ IEntry.offset e = totalBytes pre.
Proof.
  set (items := before ++ (now, item) :: after).
  exists (transformedAll items new),
    (entryOf (totalBytes (streamFrom 0 before)) now item),
    (streamFrom 0 before),
    (streamFrom (totalBytes (streamFrom 0 before)
                 + totalBytes (chunksOf (totalBytes (streamFrom 0 before)) now item)) after).
  split; [eapply exec_eq; apply transformAll_spec|].
  split.
  { rewrite store_transformedAll. unfold items. cbn [new this store offset app].
    rewrite createdFrom_app. simpl.
    rewrite list_lookup_middle by (now rewrite length_createdFrom). reflexivity. }
  split; [reflexivity|]. split.
  { rewrite enqueued_transformedAll. unfold items. cbn [new this enqueued offset app].
    rewrite streamFrom_app. simpl. unfold chunksOf.
    rewrite <- !app_assoc. reflexivity. }
  split; reflexivity.
Qed.

Lemma recordsNamed_inv (o : JSObject ref) (st : list IEntry.t)
    (names : list string) (record : Uint8Array) :
  record ∈ recordsNamed o st names ->
  exists name r e,
    name ∈ names /\ getOwn o name = Some r /\ st !! r = Some e
    /\ record = escalatedRecordOf e.
Proof.
  induction names as [|name names IH]; simpl; intros Hin; [inversion Hin|].
  unfold recordNamed in Hin at 1.
  destruct (getOwn o name) as [r|] eqn:Hr.
  - destruct (st !! r) as [e|] eqn:He.
    + apply elem_of_cons in Hin. destruct Hin as [->|Hin].
      * exists name, r, e. repeat split; [left|assumption..].
      * destruct (IH Hin) as (n & r' & e' & ? & ? & ? & ?).
        exists n, r', e'. repeat split; [now right|assumption..].
    + destruct (IH Hin) as (n & r' & e' & ? & ? & ? & ?).
      exists n, r', e'. repeat split; [now right|assumption..].
  - destruct (IH Hin) as (n & r' & e' & ? & ? & ? & ?).
    exists n, r', e'. repeat split; [now right|assumption..].
Qed.

(** X5.  Every record of the central directory belongs to an entry that
    was written: for every archive and every record that the directory loop
    enqueues there is an item whose header, content and descriptor are in
    the output, and the record is the one of the entry object of that item,
    whose offset is the number of bytes in front of that header. *)
Theorem directory_records_point_at_entries (items : list (Date * Entry.t)) :
  exists w w1 records,
    exec (transformAll items) new = Some w
    /\ exec centralDirectory w = Some w1
    /\ enqueued w1 = enqueued w ++ records
    /\ Forall (fun record =>
                 exists before now item after pre post e,
                   items = before ++ (now, item) :: after
                   /\ enqueued w
                      = pre ++ [headerOf e] ++ contentOf item
                            ++ [wideDescriptorOf e] ++ post
                   /\ e = entryOf (totalBytes pre) now item
                   /\ record = escalatedRecordOf e)
              records.
Proof.
  set (w := transformedAll items new).
  assert (Hwf : wellFormed w) by apply wellFormed_transformedAll, wellFormed_new.
  destruct (centralDirectory_spec w Hwf) as (st1 & Hdir & _ & _).
  eexists w, _, (directoryOf w).
  split; [eapply exec_eq; apply transformAll_spec|].
  split; [eapply exec_eq; exact Hdir|].
  split; [reflexivity|].
  apply Forall_forall. intros record Hin.
  apply recordsNamed_inv in Hin. destruct Hin as (name & r & e & _ & _ & He & ->).
  unfold w in He. rewrite store_transformedAll in He. cbn [new store this offset app] in He.
  apply createdFrom_lookup in He.
  destruct He as (before & now & item & after & Hitems & _ & He).
  rewrite Z.add_0_l in He.
  exists before, now, item, after, (streamFrom 0 before),
    (streamFrom (totalBytes (streamFrom 0 before)
                 + totalBytes (chunksOf (totalBytes (streamFrom 0 before)) now item)) after),
    e.
  split; [exact Hitems|]. split.
  { unfold w. rewrite enqueued_transformedAll, Hitems. cbn [new this enqueued offset app].
    rewrite streamFrom_app. simpl. unfold chunksOf. subst e.
    rewrite <- !app_assoc. reflexivity. }
  split; [exact He|reflexivity].
Qed.

End Streams.

Section NameMap.
Context `{Collaborators}.

Lemma length_namesOf (items : list (Date * Entry.t)) : length (namesOf items) = length items.
Proof. unfold namesOf. apply length_map. Qed.

Lemma length_store_transformedAll (items : list (Date * Entry.t)) :
  length (store (transformedAll items new)) = length items.
Proof.
  rewrite store_transformedAll. cbn [new store app]. apply length_createdFrom.
Qed.

Lemma nameBuffer_createdFrom (items : list (Date * Entry.t)) :
  forall cursor : Z,
    map IEntry.nameBuffer (createdFrom cursor items)
    = map textEncoder_encode (namesOf items).
Proof.
  induction items as [|[now item] items IH]; intros cursor; simpl; [reflexivity|].
  now rewrite IH.
Qed.

Lemma entries_last_addition (items : list (Date * Entry.t)) (name : string) :
  match getOwn (entries (this (transformedAll items new))) name with
  | Some r =>
      name <> "__proto__"
      /\ namesOf items !! r = Some name
      /\ Forall (fun later => later <> name) (drop (S r) (namesOf items))
      /\ exists e, store (transformedAll items new) !! r = Some e
                   /\ IEntry.nameBuffer e = textEncoder_encode name
  | None => name = "__proto__" \/ name ∉ namesOf items
  end.
Proof.
  induction items as [|[now item] items IH] using rev_ind.
  - simpl. right. apply not_elem_of_nil.
  - rewrite transformedAll_snoc, namesOf_snoc.
    pose proof (length_store_transformedAll items) as Hlen.
    pose proof (length_namesOf items) as Hnames.
    set (w := transformedAll items new) in *.
    set (added := trim (Entry.name item)).
    assert (Hkeep : forall r,
      getOwn (entries (this w)) name = Some r ->
      added <> name ->
      name <> "__proto__"
      /\ (namesOf items ++ [added]) !! r = Some name
      /\ Forall (fun later => later <> name) (drop (S r) (namesOf items ++ [added]))
      /\ exists e, store (transformed now item w) !! r = Some e
                   /\ IEntry.nameBuffer e = textEncoder_encode name).
    { intros r Hr Hne. rewrite Hr in IH.
      destruct IH as (Hnp & Hat & Hlater & e & He & Hbuf).
      assert (Hlt : (r < length (namesOf items))%nat) by (eapply lookup_lt_Some; eauto).
      split; [exact Hnp|]. split; [now rewrite lookup_app_l|]. split.
      - rewrite drop_app_le by lia. apply Forall_app. split; [exact Hlater|].
        now repeat constructor.
      - exists e. split; [|exact Hbuf].
        unfold transformed; cbn [store]. rewrite lookup_app_l; [exact He|].
        eapply lookup_lt_Some; eauto. }
    assert (Hnone :
      getOwn (entries (this w)) name = None ->
      added <> name ->
      name = "__proto__" \/ name ∉ namesOf items ++ [added]).
    { intros Hr Hne. rewrite Hr in IH. destruct IH as [?|Hout]; [now left|right].
      rewrite elem_of_app, list_elem_of_singleton. intros [?|?]; [tauto|congruence]. }
    unfold transformed at 1; cbn [this entries]. fold added. unfold assign.
    destruct (String.eqb_spec added "__proto__") as [Hproto|Hnp].
    + destruct (decide (name = added)) as [->|Hne].
      * destruct (getOwn (entries (this w)) added) as [r|] eqn:Hr.
        -- destruct IH as [Hcontra _]. congruence.
        -- now left.
      * destruct (getOwn (entries (this w)) name) as [r|] eqn:Hr.
        -- apply Hkeep; [reflexivity|congruence].
        -- apply Hnone; [reflexivity|congruence].
    + destruct (decide (name = added)) as [->|Hne].
      * rewrite getOwn_putOwn_eq. rewrite Hlen, <- Hnames.
        split; [exact Hnp|]. split; [now rewrite list_lookup_middle|]. split.
        -- rewrite drop_ge by (rewrite length_app; simpl; lia). constructor.
        -- exists (entryOf (offset (this w)) now item). split; [|reflexivity].
           unfold transformed; cbn [store]. rewrite Hnames, <- Hlen. apply lookup_snoc.
      * rewrite getOwn_putOwn_ne by assumption.
        destruct (getOwn (entries (this w)) name) as [r|] eqn:Hr.
        -- apply Hkeep; [reflexivity|congruence].
        -- apply Hnone; [reflexivity|congruence].
Qed.

(** X6.  The last addition of a name wins.  After any items, a name leads
    to the entry object of the last item of that trimmed name, an object
    that carries the encoded name; a name leads nowhere exactly when it is
    "__proto__" or no item had it. *)
Theorem name_leads_to_last_entry (items : list (Date * Entry.t)) (name : string) :
  exists w,
    exec (transformAll items) new = Some w
    /\ match getOwn (entries (this w)) name with
       | Some r =>
           name <> "__proto__"
           /\ namesOf items !! r = Some name
           /\ Forall (fun later => later <> name) (drop (S r) (namesOf items))
           /\ exists e, store w !! r = Some e
                        /\ IEntry.nameBuffer e = textEncoder_encode name
       | None => name = "__proto__" \/ name ∉ namesOf items
       end.
Proof.
  exists (transformedAll items new).
  split; [eapply exec_eq; apply transformAll_spec|].
  apply entries_last_addition.
Qed.

Lemma keys_assign (o : JSObject ref) (k : string) (v : nat) :
  map fst (assign o k v) = addName (map fst o) k.
Proof.
  unfold assign, addName. destruct (k =? "__proto__")%string; [reflexivity|].
  destruct (decide (k ∈ map fst o)) as [Hin|Hout].
  - now apply keys_putOwn_old.
  - rewrite putOwn_fresh by assumption. now rewrite map_app.
Qed.

Lemma keys_transformedAll (items : list (Date * Entry.t)) :
  forall w : World,
    map fst (entries (this (transformedAll items w)))
    = fold_left addName (namesOf items) (map fst (entries (this w))).
Proof.
  induction items as [|[now item] items IH]; intros w; simpl; [reflexivity|].
  rewrite IH. unfold transformed; cbn [this entries]. now rewrite keys_assign.
Qed.

Lemma insertIndex_sorted (n : N) (k : string) (l : list (N * string)) :
  StronglySorted (fun p q => (fst p <= fst q)%N) l ->
  StronglySorted (fun p q => (fst p <= fst q)%N) (insertIndex n k l).
Proof.
  induction 1 as [|[m k'] l Hsorted IH Hall]; simpl.
  - repeat constructor.
  - destruct (N.leb_spec n m) as [Hle|Hlt].
    + constructor; [now constructor|]. constructor; [exact Hle|].
      eapply Forall_impl; [exact Hall|]. simpl. intros q Hq. lia.
    + constructor; [exact IH|]. apply Forall_forall. intros q Hq.
      apply insertIndex_elem in Hq. destruct Hq as [->|Hq]; simpl; [lia|].
      rewrite Forall_forall in Hall. now apply Hall.
Qed.

Lemma indexKeys_sorted (ks : list string) :
  StronglySorted (fun p q => (fst p <= fst q)%N) (indexKeys ks).
Proof.
  induction ks as [|k ks IH]; simpl; [constructor|].
  destruct (arrayIndex k); [now apply insertIndex_sorted|exact IH].
Qed.

Lemma indexKeys_indexLe (l : list (N * string)) :
  StronglySorted (fun p q => (fst p <= fst q)%N) l ->
  Forall (fun p => arrayIndex (snd p) = Some (fst p)) l ->
  StronglySorted indexLe (map snd l).
Proof.
  induction 1 as [|p l Hsorted IH Hall]; intros Hidx; simpl; [constructor|].
  apply Forall_cons in Hidx. destruct Hidx as [Hp Hidx].
  constructor; [now apply IH|].
  apply Forall_forall. intros k Hk.
  apply list_elem_of_In, in_map_iff in Hk. destruct Hk as (q & <- & Hq).
  apply list_elem_of_In in Hq.
  rewrite Forall_forall in Hall, Hidx.
  unfold indexLe. rewrite Hp, (Hidx q Hq). now apply Hall.
Qed.

(** X7.  The order of the central directory for any names.  The names
    that the directory loop walks are first the array indices among the
    names added, in ascending numeric order, then the other names in the
    order of their first addition; "__proto__" is never among them, and a
    repeated name is there once.  The directory holds one record for each
    of these names, in this order, carrying the encoded name. *)
Theorem directory_order (items : list (Date * Entry.t)) :
  exists w w1 indexed others,
    exec (transformAll items) new = Some w
    /\ exec centralDirectory w = Some w1
    /\ Object_keys (entries (this w)) = indexed ++ others
    /\ StronglySorted indexLe indexed
    /\ indexed ≡ₚ List.filter isArrayIndex (namesListed items)
    /\ others = List.filter (fun k => negb (isArrayIndex k)) (namesListed items)
    /\ NoDup (indexed ++ others)
    /\ ("__proto__" ∉ indexed ++ others)
    /\ Forall2 (fun key record =>
                  exists e, IEntry.nameBuffer e = textEncoder_encode key
                            /\ record = escalatedRecordOf e)
               (indexed ++ others) (drop (length (enqueued w)) (enqueued w1)).
Proof.
  set (w := transformedAll items new).
  assert (Hwf : wellFormed w) by apply wellFormed_transformedAll, wellFormed_new.
  assert (Hkeys : map fst (entries (this w)) = namesListed items).
  { unfold w. now rewrite keys_transformedAll. }
  destruct (centralDirectory_spec w Hwf) as (st1 & Hdir & _ & _).
  eexists w, _, (map snd (indexKeys (map fst (entries (this w))))),
    (List.filter (fun k => negb (isArrayIndex k)) (map fst (entries (this w)))).
  split; [eapply exec_eq; apply transformAll_spec|].
  split; [eapply exec_eq; exact Hdir|].
  split; [reflexivity|]. split.
  { apply indexKeys_indexLe; [apply indexKeys_sorted|].
    apply Forall_forall. intros [n k] Hp. apply indexKeys_elem in Hp. tauto. }
  split; [rewrite <- Hkeys; apply indexKeys_Permutation|].
  split; [now rewrite Hkeys|].
  change (map snd (indexKeys (map fst (entries (this w))))
          ++ List.filter (fun k => negb (isArrayIndex k)) (map fst (entries (this w))))
    with (Object_keys (entries (this w))).
  split.
  { rewrite Object_keys_Permutation. apply keysDistinct_transformedAll. constructor. }
  split.
  { intros Hin. apply Object_keys_own in Hin. destruct Hin as (r & Hr & _).
    pose proof (entries_last_addition items "__proto__") as Hlast.
    fold w in Hlast. rewrite Hr in Hlast. now destruct Hlast. }
  cbn [enqueued]. rewrite drop_app_length.
  unfold directoryOf.
  assert (Hall : forall key, key ∈ Object_keys (entries (this w)) ->
            exists e, recordNamed (entries (this w)) (store w) key
                      = Some (escalatedRecordOf e)
                      /\ IEntry.nameBuffer e = textEncoder_encode key).
  { intros key Hin. apply Object_keys_own in Hin. destruct Hin as (r & Hr & _).
    pose proof (entries_last_addition items key) as Hlast.
    fold w in Hlast. rewrite Hr in Hlast.
    destruct Hlast as (_ & _ & _ & e & He & Hbuf).
    exists e. split; [|exact Hbuf]. unfold recordNamed. now rewrite Hr, He. }
  revert Hall. generalize (Object_keys (entries (this w))) as keys.
  induction keys as [|key keys IH]; intros Hall; simpl; [constructor|].
  destruct (Hall key) as (e & Hrec & Hbuf); [left|].
  rewrite Hrec. constructor.
  - exists e. now split.
  - apply IH. intros key' Hin. apply Hall. now right.
Qed.

End NameMap.

Section Finalize.
Context `{Collaborators}.

Lemma forceZip64_transformedAll (items : list (Date * Entry.t)) :
  forall w : World, forceZip64 (this (transformedAll items w)) = forceZip64 (this w).
Proof.
  induction items as [|[now item] items IH]; intros w; simpl; [reflexivity|].
  now rewrite IH.
Qed.

(** X8.  What ends every archive.  After the directory [flush] enqueues
    three records and nothing more: a Zip64 end record of 56 bytes that
    counts the records of the directory and gives its size and the number
    of bytes in front of it, a locator of 20 bytes whose offset field is the
    position of that Zip64 end record in the output, and an end record of
    22 bytes. *)
Theorem end_records_locate_directory (items : list (Date * Entry.t)) :
  exists w w2 directory zip64 locator last,
    exec (transformAll items) new = Some w
    /\ exec flush w = Some w2
    /\ enqueued w2 = enqueued w ++ directory ++ [zip64; locator; last]
    /\ zip64 = Layout.zip64EndRecord (Z.of_nat (length directory))
                 (totalBytes directory) (totalBytes (enqueued w))
    /\ locator = Layout.zip64Locator (totalBytes (enqueued w ++ directory))
    /\ byteLength zip64 = 56
    /\ byteLength locator = 20
    /\ byteLength last = 22.
Proof.
  set (w := transformedAll items new).
  assert (Hc : counted w) by (apply counted_transformedAll; reflexivity).
  assert (Hwf : wellFormed w) by apply wellFormed_transformedAll, wellFormed_new.
  destruct (centralDirectory_spec w Hwf) as (st1 & _ & _ & Hlen).
  destruct (flush_spec w Hwf) as (st2 & Hflush & _).
  eexists w, _, (directoryOf w), _, _, _.
  split; [eapply exec_eq; apply transformAll_spec|].
  split; [eapply exec_eq; exact Hflush|].
  split; [reflexivity|].
  unfold counted in Hc. unfold entryCount. rewrite <- Hlen, Hc, totalBytes_app.
  split; [reflexivity|]. split; [reflexivity|].
  unfold Layout.zip64EndRecord, Layout.zip64Locator, Layout.endRecord, byteLength.
  rewrite !length_app, !length_le_bytes. repeat split.
Qed.

Lemma extraSet_refl (e : IEntry.t) : extraSet e e.
Proof. now left. Qed.

Lemma extraSet_trans (a b c : IEntry.t) : extraSet a b -> extraSet b c -> extraSet a c.
Proof.
  intros [-> | ->] [-> | ->]; [now left|now right|now right|now right].
Qed.

(** The directory loop changes entry objects in their extra field only. *)
Lemma directoryLoop_extra (names : list string) :
  forall w w' : World,
    wellFormed w ->
    (forall name, name ∈ names -> name ∈ map fst (entries (this w))) ->
    forEach names centralDirectoryFileHeader w = Some (tt, w') ->
    Forall2 extraSet (store w) (store w').
Proof.
  induction names as [|name names IH]; intros w w' Hwf Hin Hrun.
  - injection Hrun as <-. apply Forall_Forall2_diag, Forall_true, extraSet_refl.
  - destruct (getOwn_elem (entries (this w)) name) as (r & Hr & Hel).
    { apply Hin. left. }
    assert (Hlt : (r < length (store w))%nat).
    { unfold wellFormed in Hwf. rewrite Forall_forall in Hwf. apply (Hwf (name, r) Hel). }
    destruct (lookup_lt_is_Some_2 _ _ Hlt) as [e He].
    simpl forEach in Hrun.
    erewrite bind_eq in Hrun by (eapply centralDirectoryFileHeader_spec; eassumption).
    apply IH in Hrun.
    + cbn [store] in Hrun.
      eapply Forall2_trans; [apply extraSet_trans| |exact Hrun].
      apply Forall2_same_length_lookup_2; [now rewrite length_insert|].
      intros i a b Ha Hb. destruct (decide (i = r)) as [->|Hne].
      * rewrite list_lookup_insert_eq in Hb by assumption.
        assert (a = e) by congruence. subst a. injection Hb as <-. now right.
      * rewrite list_lookup_insert_ne in Hb by congruence.
        assert (a = b) by congruence. subst b. now left.
    + unfold wellFormed; cbn [this store set_offset entries]. rewrite length_insert.
      exact Hwf.
    + intros name' Hn. cbn [this set_offset entries]. apply Hin. now right.
Qed.

Lemma centralDirectory_extra (w : World) :
  wellFormed w ->
  exists st',
    centralDirectory w =
      Some (tt, {| this := {| forceZip64 := forceZip64 (this w);
                              entry := entry (this w);
                              entries := entries (this w);
                              offset := offset (this w) + totalBytes (directoryOf w);
                              centralOffset := offset (this w);
                              centralSize := totalBytes (directoryOf w) |};
                   store := st';
                   enqueued := enqueued w ++ directoryOf w |})
    /\ Forall2 extraSet (store w) st'.
Proof.
  intros Hwf.
  set (w0 := {| this := set_centralOffset (offset (this w)) (this w);
                store := store w; enqueued := enqueued w |}).
  destruct (directoryLoop_spec (Object_keys (entries (this w))) w0)
    as (st' & Hrun & _ & _).
  { exact Hwf. }
  { intros name Hn. now apply Object_keys_elem. }
  pose proof (directoryLoop_extra _ w0 _ Hwf
                (fun name Hn => Object_keys_elem _ _ Hn) Hrun) as Hextra.
  exists st'. split; [|exact Hextra].
  unfold centralDirectory. do 3 step.
  erewrite bind_eq by exact Hrun.
  do 2 step. unfold put, directoryOf, set_centralSize, set_offset. simpl.
  do 4 f_equal. lia.
Qed.

Lemma flush_extra (w : World) :
  wellFormed w ->
  exists st',
    flush w =
      Some (tt, {| this := {| forceZip64 := forceZip64 (this w);
                              entry := entry (this w);
                              entries := entries (this w);
                              offset := offset (this w)
                                        + totalBytes (directoryOf w ++ endRecordsOf w);
                              centralOffset := offset (this w);
                              centralSize := totalBytes (directoryOf w) |};
                   store := st';
                   enqueued := enqueued w ++ directoryOf w ++ endRecordsOf w |})
    /\ Forall2 extraSet (store w) st'.
Proof.
  intros Hwf. destruct (centralDirectory_extra w Hwf) as (st' & Hcd & Hextra).
  exists st'. split; [|exact Hextra].
  unfold flush.
  erewrite bind_eq by exact Hcd.
  erewrite bind_eq by apply zip64EndOfCentralDirectory_spec.
  rewrite endOfCentralDirectory_spec.
  unfold set_offset, endRecordsOf, entryCount.
  cbn [this store enqueued offset forceZip64 entry entries centralOffset centralSize].
  rewrite totalBytes_app. cbn [totalBytes fold_right].
  rewrite <- !app_assoc. simpl app.
  do 4 f_equal. lia.
Qed.

Lemma extra_createdFrom (items : list (Date * Entry.t)) :
  forall cursor : Z, Forall (fun e => IEntry.extra e = []) (createdFrom cursor items).
Proof.
  induction items as [|[now item] items IH]; intros cursor; simpl; constructor;
    [reflexivity|apply IH].
Qed.

(** X9.  What [flush] leaves alone.  On every archive [flush] keeps the
    name map, [this.entry] and [forceZip64], keeps everything enqueued
    before in front, and changes an entry object at most in its extra
    field, empty until then, which it sets to the Zip64 extra field of the
    sizes and the offset of that object. *)
Theorem flush_keeps_entries (items : list (Date * Entry.t)) :
  exists w w2 added,
    exec (transformAll items) new = Some w
    /\ exec flush w = Some w2
    /\ entries (this w2) = entries (this w)
    /\ entry (this w2) = entry (this w)
    /\ forceZip64 (this w2) = forceZip64 (this w)
    /\ enqueued w2 = enqueued w ++ added
    /\ Forall (fun e => IEntry.extra e = []) (store w)
    /\ Forall2 extraSet (store w) (store w2).
Proof.
  set (w := transformedAll items new).
  assert (Hwf : wellFormed w) by apply wellFormed_transformedAll, wellFormed_new.
  destruct (flush_extra w Hwf) as (st' & Hflush & Hextra).
  eexists w, _, _.
  split; [eapply exec_eq; apply transformAll_spec|].
  split; [eapply exec_eq; exact Hflush|].
  cbn [this store enqueued entries entry forceZip64].
  do 4 (split; [reflexivity|]).
  split; [|exact Hextra].
  unfold w. rewrite store_transformedAll. cbn [new store this offset app].
  apply extra_createdFrom.
Qed.

(** X10.  The escalation predicate on a finished archive.  No method
    sets [forceZip64], so after [flush] the predicate [isZip64] of the class
    holds exactly when more than 0xFFFF names are listed, or the directory is
    longer than 0xFFFFFFFF bytes, or more than 0xFFFFFFFF bytes lie in
    front of it. *)
Theorem escalation_predicate_after_flush (items : list (Date * Entry.t)) :
  exists w w2 directory added,
    exec (transformAll items) new = Some w
    /\ exec flush w = Some w2
    /\ enqueued w2 = enqueued w ++ directory ++ added
    /\ length directory = length (Object_keys (entries (this w2)))
    /\ forceZip64 (this w2) = false
    /\ isZip64 (this w2)
       = (Z.of_nat (length directory) >? 0xFFFF)
         || (totalBytes directory >? 0xFFFFFFFF)
         || (totalBytes (enqueued w) >? 0xFFFFFFFF).
Proof.
  set (w := transformedAll items new).
  assert (Hc : counted w) by (apply counted_transformedAll; reflexivity).
  assert (Hwf : wellFormed w) by apply wellFormed_transformedAll, wellFormed_new.
  assert (Hf : forceZip64 (this w) = false) by apply forceZip64_transformedAll.
  destruct (centralDirectory_spec w Hwf) as (st1 & _ & _ & Hlen).
  destruct (flush_spec w Hwf) as (st2 & Hflush & _).
  eexists w, _, (directoryOf w), (endRecordsOf w).
  split; [eapply exec_eq; apply transformAll_spec|].
  split; [eapply exec_eq; exact Hflush|].
  cbn [this enqueued entries forceZip64].
  split; [reflexivity|]. split; [exact Hlen|]. split; [exact Hf|].
  unfold isZip64; cbn [forceZip64 entries centralSize centralOffset].
  unfold counted in Hc. rewrite Hf, Hlen, Hc. reflexivity.
Qed.

End Finalize.

Section Sizes.
Context `{Collaborators}.

Lemma sizes_createdFrom (items : list (Date * Entry.t)) :
  forall cursor : Z,
    Forall (fun e => IEntry.compressedSize e = IEntry.size e
                     /\ 0 <= IEntry.size e
                     /\ IEntry.isZip64 e = (IEntry.size e >? 0xFFFFFFFF))
           (createdFrom cursor items).
Proof.
  induction items as [|[now item] items IH]; intros cursor; simpl; constructor;
    [|apply IH].
  unfold IEntry.isZip64, entryOf; cbn [IEntry.compressedSize IEntry.size].
  split; [reflexivity|]. split; [apply totalBytes_nonneg|]. apply orb_diag.
Qed.

(** X11.  Content is stored as it comes: in every entry object of every
    archive the compressed size equals the size and is not negative, so that
    the predicate [isZip64] of an entry holds exactly when its size exceeds
    0xFFFFFFFF. *)
Theorem entry_sizes_agree (items : list (Date * Entry.t)) :
  exists w,
    exec (transformAll items) new = Some w
    /\ length (store w) = length items
    /\ Forall (fun e => IEntry.compressedSize e = IEntry.size e
                        /\ 0 <= IEntry.size e
                        /\ IEntry.isZip64 e = (IEntry.size e >? 0xFFFFFFFF))
              (store w).
Proof.
  exists (transformedAll items new).
  split; [eapply exec_eq; apply transformAll_spec|].
  split; [apply length_store_transformedAll|].
  rewrite store_transformedAll. cbn [new store this offset app].
  apply sizes_createdFrom.
Qed.

Lemma sumZ_Permutation (l l' : list Z) : l ≡ₚ l' -> sumZ l = sumZ l'.
Proof.
  induction 1 as [|x l l' _ IH|x y l|l l' l'' _ IH1 _ IH2]; simpl.
  - reflexivity.
  - unfold sumZ in *. simpl. now rewrite IH.
  - unfold sumZ. simpl. lia.
  - congruence.
Qed.

Lemma totalBytes_streamFrom (items : list (Date * Entry.t)) :
  forall cursor : Z, totalBytes (streamFrom cursor items) = sumZ (map entryBytes items).
Proof.
  induction items as [|[now item] items IH]; intros cursor; cbn [streamFrom map];
    [reflexivity|].
  rewrite totalBytes_app, IH, totalBytes_chunksOf.
  unfold headerOf, wideDescriptorOf.
  rewrite length_localFileHeader, length_dataDescriptor.
  unfold sumZ, entryBytes; cbn [fold_right snd IEntry.nameBuffer entryOf]. lia.
Qed.

Lemma length_escalatedRecordOf (e : IEntry.t) :
  byteLength (escalatedRecordOf e) = 74 + byteLength (IEntry.nameBuffer e).
Proof.
  unfold escalatedRecordOf. rewrite length_centralDirectoryRecord.
  unfold Layout.zip64ExtraField, byteLength.
  rewrite !length_app, !length_le_bytes. lia.
Qed.

Lemma totalBytes_directory (items : list (Date * Entry.t)) :
  totalBytes (directoryOf (transformedAll items new))
  = sumZ (map recordBytes (Object_keys (entries (this (transformedAll items new))))).
Proof.
  set (w := transformedAll items new).
  unfold directoryOf.
  assert (Hall : forall key, key ∈ Object_keys (entries (this w)) ->
            exists e, recordNamed (entries (this w)) (store w) key
                      = Some (escalatedRecordOf e)
                      /\ IEntry.nameBuffer e = textEncoder_encode key).
  { intros key Hin. apply Object_keys_own in Hin. destruct Hin as (r & Hr & _).
    pose proof (entries_last_addition items key) as Hlast.
    fold w in Hlast. rewrite Hr in Hlast.
    destruct Hlast as (_ & _ & _ & e & He & Hbuf).
    exists e. split; [|exact Hbuf]. unfold recordNamed. now rewrite Hr, He. }
  revert Hall. generalize (Object_keys (entries (this w))) as keys.
  induction keys as [|key keys IH]; intros Hall; cbn [recordsNamed map]; [reflexivity|].
  destruct (Hall key) as (e & Hrec & Hbuf); [left|].
  rewrite Hrec. cbn [totalBytes fold_right]. fold (totalBytes (recordsNamed
    (entries (this w)) (store w) keys)).
  rewrite IH by (intros key' Hin; apply Hall; now right).
  rewrite length_escalatedRecordOf, Hbuf. reflexivity.
Qed.

(** X12.  The length of an archive.  Whenever a whole archive completes,
    the number of bytes it has enqueued is 54 bytes and the encoded name and
    the content for each item, 74 bytes and the encoded name for each name
    listed in the directory, and 98 bytes of end records; the cursor ends at
    that number. *)
Theorem archive_length (items : list (Date * Entry.t)) (w' : World) :
  exec (archive items) new = Some w' ->
  totalBytes (enqueued w')
  = sumZ (map entryBytes items) + sumZ (map recordBytes (namesListed items)) + 98
  /\ offset (this w') = totalBytes (enqueued w').
Proof.
  intros Hrun.
  set (w := transformedAll items new).
  assert (Hc : counted w) by (apply counted_transformedAll; reflexivity).
  assert (Hwf : wellFormed w) by apply wellFormed_transformedAll, wellFormed_new.
  destruct (flush_spec w Hwf) as (st' & Hflush & _).
  assert (Harchive : exec (archive items) new = Some
            {| this := {| forceZip64 := forceZip64 (this w);
                          entry := entry (this w);
                          entries := entries (this w);
                          offset := offset (this w)
                                    + totalBytes (directoryOf w ++ endRecordsOf w);
                          centralOffset := offset (this w);
                          centralSize := totalBytes (directoryOf w) |};
               store := st';
               enqueued := enqueued w ++ directoryOf w ++ endRecordsOf w |}).
  { eapply exec_eq. unfold archive.
    erewrite bind_eq by apply transformAll_spec. exact Hflush. }
  rewrite Harchive in Hrun. injection Hrun as <-.
  cbn [this enqueued offset]. unfold counted in Hc.
  rewrite !totalBytes_app, Hc. split; [|lia].
  unfold w at 1. rewrite enqueued_transformedAll. cbn [new this enqueued offset app].
  rewrite totalBytes_streamFrom.
  fold w. unfold w at 1. rewrite totalBytes_directory. fold w.
  assert (Hkeys : sumZ (map recordBytes (Object_keys (entries (this w))))
                  = sumZ (map recordBytes (namesListed items))).
  { apply sumZ_Permutation. apply Permutation_map.
    rewrite Object_keys_Permutation. unfold w. now rewrite keys_transformedAll. }
  rewrite Hkeys.
  assert (Hend : totalBytes (endRecordsOf w) = 98).
  { unfold endRecordsOf, Layout.zip64EndRecord, Layout.zip64Locator, Layout.endRecord.
    cbn [totalBytes fold_right]. unfold byteLength.
    rewrite !length_app, !length_le_bytes. reflexivity. }
  rewrite Hend. lia.
Qed.

End Sizes.

(** * A name added twice *)

Section RepeatedName.
Context `{Collaborators}.

Lemma transformedAll_app (a b : list (Date * Entry.t)) (w : World) :
  transformedAll (a ++ b) w = transformedAll b (transformedAll a w).
Proof. unfold transformedAll. apply fold_left_app. Qed.

Lemma namesOf_app (a b : list (Date * Entry.t)) :
  namesOf (a ++ b) = namesOf a ++ namesOf b.
Proof. unfold namesOf. apply map_app. Qed.

Lemma later_in_drop {A : Type} (l : list A) (i j : nat) (x : A) :
  (i < j)%nat -> l !! j = Some x -> x ∈ drop (S i) l.
Proof.
  intros Hlt Hj. apply list_elem_of_lookup. exists (j - S i)%nat.
  rewrite lookup_drop. now replace (S i + (j - S i))%nat with j by lia.
Qed.

Lemma length_addName (names : list string) (name : string) :
  (length (addName names name) <= S (length names))%nat.
Proof.
  unfold addName. destruct (name =? "__proto__")%string; [lia|].
  destruct (decide (name ∈ names)); [lia|]. rewrite length_app. simpl. lia.
Qed.

Lemma length_fold_addName (added : list string) :
  forall names : list string,
    (length (fold_left addName added names) <= length names + length added)%nat.
Proof.
  induction added as [|name added IH]; intros names; simpl; [lia|].
  specialize (IH (addName names name)).
  pose proof (length_addName names name). lia.
Qed.

Lemma length_Object_keys {V : Type} (o : JSObject V) :
  length (Object_keys o) = length o.
Proof.
  rewrite (Permutation_length (Object_keys_Permutation o)). apply length_map.
Qed.

(** The last position of a name is not in front of any position of it. *)
Lemma last_position_bound (names : list string) (name : string) (r i : nat) :
  Forall (fun later => later <> name) (drop (S r) names) ->
  names !! i = Some name ->
  (i <= r)%nat.
Proof.
  intros Hlater Hi. destruct (Nat.le_gt_cases i r) as [?|Hlt]; [assumption|].
  exfalso. rewrite Forall_forall in Hlater.
  apply (Hlater name); [|reflexivity]. eapply later_in_drop; eauto.
Qed.


End RepeatedName.

Section RepeatedNameEvaluations.
#[local] Existing Instance Reference.collaborators.
Import Samples.



Lemma transform_appends_only_witness :
  exec (transform 0 xtxt) new = Some (transformed 0 xtxt new)
  /\ exists e chunks,
       store (transformed 0 xtxt new) = store new ++ [e]
       /\ enqueued (transformed 0 xtxt new) = enqueued new ++ chunks
       /\ forceZip64 (this (transformed 0 xtxt new)) = forceZip64 (this new)
       /\ centralOffset (this (transformed 0 xtxt new)) = centralOffset (this new)
       /\ centralSize (this (transformed 0 xtxt new)) = centralSize (this new)
       /\ (if ("a.txt" =? trim (Entry.name xtxt))%string
           then True
           else getOwn (entries (this (transformed 0 xtxt new))) "a.txt"
                = getOwn (entries (this new)) "a.txt").
Proof.
  assert (Hrun : exec (transform 0 xtxt) new = Some (transformed 0 xtxt new))
    by reflexivity.
  split; [exact Hrun|].
  exact (transform_appends_only 0 xtxt new (transformed 0 xtxt new) "a.txt" Hrun).
Defined.

Lemma archive_length_witness :
  let items := [(0, empty "a.txt"); (0, xtxt)] in
  let w := transformedAll items new in
  let w' :=
    {| this := {| forceZip64 := forceZip64 (this w);
                  entry := entry (this w);
                  entries := entries (this w);
                  offset := offset (this w)
                            + totalBytes (directoryOf w ++ endRecordsOf w);
                  centralOffset := offset (this w);
                  centralSize := totalBytes (directoryOf w) |};
       store := map (fun e =>
                  {| IEntry.offset := IEntry.offset e;
                     IEntry.crc := IEntry.crc e;
                     IEntry.compressedSize := IEntry.compressedSize e;
                     IEntry.size := IEntry.size e;
                     IEntry.nameBuffer := IEntry.nameBuffer e;
                     IEntry.date := IEntry.date e;
                     IEntry.extra :=
                       Layout.zip64ExtraField (IEntry.size e)
                         (IEntry.compressedSize e) (IEntry.offset e) |})
                  (store w);
       enqueued := enqueued w ++ directoryOf w ++ endRecordsOf w |} in
  exec (archive items) new = Some w'
  /\ totalBytes (enqueued w')
     = sumZ (map entryBytes items) + sumZ (map recordBytes (namesListed items)) + 98
  /\ offset (this w') = totalBytes (enqueued w').
Proof.
  intros items w w'.
  assert (Hrun : exec (archive items) new = Some w') by reflexivity.
  split; [exact Hrun|].
  exact (archive_length items w' Hrun).
Defined.

End RepeatedNameEvaluations.
